(** * backendChat: room lifecycle and event routing of the chat relay

    A shallow embedding of the Socket.IO handlers of [server.js] and of the
    two earlier revisions of the same server kept in the repository
    ([part_001], the strict create-then-join server, and [part_000], the
    first relay without a room directory).

    What is modelled, and how:
    - [activeRooms], the module-level object used as a dictionary from room
      id to [{ type }], is a [gmap] of its own keys, and the read
      [activeRooms[roomId]] is [activeRooms_get]: the entry under an own
      key, else, for the property names every plain object inherits from
      [Object.prototype] ("constructor", "toString", ...), the inherited
      member, which is truthy and has no [type]; else [undefined];
    - a request carries an object or nothing. The handlers that take their
      argument by destructuring throw when there is nothing ([None] of the
      [on_...] functions); in an object, [username] and [roomType], which
      the handlers only store, compare and send on, are a string or
      missing ([None], JavaScript's [undefined]); [roomId], which is handed
      to Socket.IO as a room name, is a string, as are the message fields;
    - a connected socket is a record of [socket.data.username] (absent until
      the first join) and [socket.rooms] in insertion order;
      [io.sockets.sockets] is the map from socket id to that record;
    - [io.sockets.adapter.rooms] is the index of the same membership by
      room, so it is computed from the sockets: a room with no member is
      [undefined] there;
    - Socket.IO is taken by its documented contract: a new socket is in
      the room named by its own id; [socket.emit] reaches the socket
      itself, [socket.to(room).emit] the members of the room except the
      emitting socket, [io.to(room).emit] all members of the room; the
      [disconnecting] event fires while the socket is still in its rooms.
      An emission is recorded with the set of sockets it reaches at the
      moment it is made;
    - socket ids are drawn by the transport and [nanoid] ids by the
      library: a new id is taken to differ from the ids in use, which is
      the only thing assumed about them;
    - a handler that does not throw runs to completion (single-threaded
      event loop), so it is a function from the world before to the world
      after and the emissions made. *)

From stdpp Require Import gmap strings list fin_maps fin_sets.

#[local] Set Warnings "-clear-no-such-hyp".
Local Open Scope string_scope.
Local Open Scope nat_scope.

(** ** Data *)

(** A connected socket: [socket.data.username] and [socket.rooms]. *)
Record Socket := mkSocket {
  username : option string;
  rooms : list string
}.

(** [fileData] of the upload endpoint. *)
Record FileData := mkFileData {
  filename : string;
  originalname : string;
  mimetype : string;
  size_bytes : N;
  path : string
}.

(** Outbound events, one constructor per event name and payload shape. *)
Inductive Payload :=
  | JoinSuccess (roomId : string)
  | RoomTypeMismatch (existingType attemptedType : option string)
  | RoomFull
  | RoomNotFound
  | RoomCreated (roomId : string)
  | UserJoined (name : option string)
  | UserLeft (name : option string)
  | ChatMessageOut (message messageId senderId : string)
                   (senderName : option string)
  | ReadReceipt (messageId : string)
  | TypingOut (senderName : option string) (isTyping : bool)
  | FileShared (file : FileData) (senderId : option string)
               (senderName : option string) (tempId : option string)
  (* payload shapes of the first revision (part_000) *)
  | UserJoinedId (socketId : string)
  | ChatMessageBare (message senderId : string)
  | TypingId (senderId : string) (isTyping : bool)
  | FileSharedBare (file : FileData) (senderId : option string).

(** One emission: the sockets it is delivered to, and what it carries. *)
Record Delivery := mkDelivery {
  recipients : gset string;
  payload : Payload
}.

(** The state of the process. *)
Record World := mkWorld {
  activeRooms : gmap string (option string);
  sockets : gmap string Socket
}.

(** [const activeRooms = {}], nobody connected. *)
Definition init : World := mkWorld ∅ ∅.

Definition set_activeRooms
    (f : gmap string (option string) → gmap string (option string))
    (w : World) : World :=
  mkWorld (f (activeRooms w)) (sockets w).

Definition set_sockets (f : gmap string Socket → gmap string Socket)
    (w : World) : World :=
  mkWorld (activeRooms w) (f (sockets w)).

(** ** The directory object *)

(** The property names a plain object inherits from [Object.prototype]. *)
Definition inherited_names : list string :=
  ["constructor"; "__defineGetter__"; "__defineSetter__"; "hasOwnProperty";
   "__lookupGetter__"; "__lookupSetter__"; "isPrototypeOf";
   "propertyIsEnumerable"; "toString"; "valueOf"; "__proto__";
   "toLocaleString"].

Definition inherited (key : string) : bool :=
  bool_decide (key ∈ inherited_names).

(** What [activeRooms[roomId]] evaluates to when it is not [undefined]:
    an entry [{ type }] stored by the server, or a member inherited from
    [Object.prototype] (a function, or the prototype itself for
    "__proto__"). Both are truthy. *)
Inductive RoomData :=
  | RoomEntry (type : option string)
  | InheritedMember.

(** [roomData.type]: an inherited member has no such property. *)
Definition room_type (roomData : RoomData) : option string :=
  match roomData with
  | RoomEntry type => type
  | InheritedMember => None
  end.

(** [activeRooms[roomId]], [None] for [undefined]. *)
Definition activeRooms_get (w : World) (roomId : string) : option RoomData :=
  match activeRooms w !! roomId with
  | Some type => Some (RoomEntry type)
  | None => if inherited roomId then Some InheritedMember else None
  end.

(** A handler whose parameter is a destructuring pattern: called without
    an argument it throws a [TypeError] before its body runs ([None]). *)
Definition destructuring {A B : Type} (body : A → B) (arg : option A)
    : option B :=
  body <$> arg.

(** ** Transport *)

(** The sockets that are in room [r]. *)
Definition members (w : World) (r : string) : gset string :=
  dom (filter (λ kv, r ∈ rooms kv.2) (sockets w)).

(** [io.sockets.adapter.rooms.get(r)]: the member set, [undefined] (here
    [None]) when nobody is in the room. *)
Definition adapter_rooms_get (w : World) (r : string) : option (gset string) :=
  let m := members w r in
  if decide (m = ∅) then None else Some m.

(** [room && room.size >= n] *)
Definition room_size_ge (room : option (gset string)) (n : nat) : bool :=
  match room with
  | Some m => bool_decide (n ≤ size m)
  | None => false
  end.

(** [roomAdapter && roomAdapter.size === n] *)
Definition room_size_is (room : option (gset string)) (n : nat) : bool :=
  match room with
  | Some m => bool_decide (size m = n)
  | None => false
  end.

(** A new connection: Socket.IO puts the socket in the room named by its
    own id. *)
Definition connect (c : string) (w : World) : World :=
  set_sockets (<[c := mkSocket None [c]]>) w.

(** [socket.data.username = u], where [u] is the [username] of the request,
    [undefined] when the request has none *)
Definition set_username (c : string) (u : option string) (w : World) : World :=
  set_sockets (alter (λ s, mkSocket u (rooms s)) c) w.

(** [socket.join(r)] *)
Definition socket_join (c r : string) (w : World) : World :=
  set_sockets
    (alter (λ s, mkSocket (username s)
                   (if decide (r ∈ rooms s) then rooms s else rooms s ++ [r]))
           c) w.

(** The transport's teardown after the [disconnecting] handlers have run:
    the socket leaves every room and is dropped. *)
Definition remove_socket (c : string) (w : World) : World :=
  set_sockets (delete c) w.

(** [socket.data.username] of socket [c] *)
Definition username_of (w : World) (c : string) : option string :=
  sockets w !! c ≫= username.

(** [socket.rooms] of socket [c] *)
Definition rooms_of (w : World) (c : string) : list string :=
  default [] (rooms <$> sockets w !! c).

(** [socket.emit(p)] *)
Definition socket_emit (c : string) (p : Payload) : Delivery :=
  mkDelivery {[c]} p.

(** [socket.to(r).emit(p)] *)
Definition socket_to_emit (w : World) (c r : string) (p : Payload) : Delivery :=
  mkDelivery (members w r ∖ {[c]}) p.

(** [io.to(r).emit(p)] *)
Definition io_to_emit (w : World) (r : string) (p : Payload) : Delivery :=
  mkDelivery (members w r) p.

(** ** Handlers shared by [server.js] and [part_001] *)

(** The tail of both [join-room] handlers once all checks have passed. *)
Definition enter_room (w : World) (socket roomId : string)
    (name : option string) : World * list Delivery :=
  let w1 := set_username socket name w in
  let w2 := socket_join socket roomId w1 in
  (w2, [socket_to_emit w2 socket roomId (UserJoined name);
        socket_emit socket (JoinSuccess roomId)]).

(** The body of [socket.on('chat-message', ...)] *)
Definition chat_message (w : World) (socket roomId message messageId : string)
    : World * list Delivery :=
  (w, [socket_to_emit w socket roomId
         (ChatMessageOut message messageId socket (username_of w socket))]).

(** The body of [socket.on('message-seen', ...)] *)
Definition message_seen (w : World) (socket roomId messageId : string)
    : World * list Delivery :=
  (w, [socket_to_emit w socket roomId (ReadReceipt messageId)]).

(** The body of [socket.on('typing', ...)] *)
Definition typing (w : World) (socket roomId : string) (isTyping : bool)
    : World * list Delivery :=
  (w, [socket_to_emit w socket roomId
         (TypingOut (username_of w socket) isTyping)]).

(** The three relay handlers on whatever the client sent: they take
    their argument by destructuring, as [join-room] does. *)
Definition on_chat_message (w : World) (socket : string)
    (arg : option (string * string * string))
    : option (World * list Delivery) :=
  destructuring
    (λ '(roomId, message, messageId),
       chat_message w socket roomId message messageId) arg.

Definition on_message_seen (w : World) (socket : string)
    (arg : option (string * string)) : option (World * list Delivery) :=
  destructuring (λ '(roomId, messageId), message_seen w socket roomId messageId)
                arg.

Definition on_typing (w : World) (socket : string)
    (arg : option (string * bool)) : option (World * list Delivery) :=
  destructuring (λ '(roomId, isTyping), typing w socket roomId isTyping) arg.

(** The body of [for (const room of socket.rooms)] in the [disconnecting]
    handler, over the rooms still to visit. *)
Fixpoint disconnecting_loop (w : World) (socket : string) (rs : list string)
    : World * list Delivery :=
  match rs with
  | [] => (w, [])
  | room :: rs' =>
      if bool_decide (room ≠ socket) then
        let d := socket_to_emit w socket room (UserLeft (username_of w socket)) in
        let roomAdapter := adapter_rooms_get w room in
        let w' := if room_size_is roomAdapter 1
                  then set_activeRooms (delete room) w
                  else w in
        let '(w'', ds) := disconnecting_loop w' socket rs' in
        (w'', d :: ds)
      else disconnecting_loop w socket rs'
  end.

(** [socket.on('disconnecting', ...)] *)
Definition disconnecting (w : World) (socket : string) : World * list Delivery :=
  disconnecting_loop w socket (rooms_of w socket).

(** A disconnect as the process sees it: the handler, then the teardown. *)
Definition disconnect (w : World) (socket : string) : World * list Delivery :=
  let '(w', ds) := disconnecting w socket in
  (remove_socket socket w', ds).

(** What multer hands to the upload callback in [req.file]. *)
Record UploadedFile := mkUploadedFile {
  file_filename : string;
  file_originalname : string;
  file_mimetype : string;
  file_size : N
}.

(** The HTTP answer of [POST /upload]. *)
Inductive Response :=
  | Status200 (body : FileData)
  | Status400 (error : string)
  | Status500 (error : string).

Definition fileData_of (f : UploadedFile) : FileData :=
  mkFileData (file_filename f) (file_originalname f) (file_mimetype f)
             (file_size f) ("/uploads/" ++ file_filename f).

(** JavaScript truthiness of a form field: present and not empty. *)
Definition truthy (field : option string) : option string :=
  match field with
  | Some "" => None
  | other => other
  end.

(** [senderSocket ? senderSocket.data.username : 'A user'] *)
Definition sender_name (w : World) (senderId : option string) : option string :=
  match senderId ≫= (λ c, sockets w !! c) with
  | Some senderSocket => username senderSocket
  | None => Some "A user"
  end.

(** [app.post('/upload', ...)] of [server.js] and [part_001]: [err] and
    [file] are what multer passes on, the rest are the form fields. *)
Definition upload (w : World) (err : option string) (file : option UploadedFile)
    (roomId senderId tempId : option string) : Response * list Delivery :=
  match err with
  | Some message => (Status500 message, [])
  | None =>
      match file with
      | None => (Status400 "No file uploaded.", [])
      | Some f =>
          let fileData := fileData_of f in
          (Status200 fileData,
           match truthy roomId with
           | Some r =>
               [io_to_emit w r
                  (FileShared fileData senderId (sender_name w senderId) tempId)]
           | None => []
           end)
      end
  end.

(** ** [server.js]: one [join-room] that creates the room when absent *)
Module Server.

(** The body of [socket.on('join-room', ({ roomId, username, roomType })
    => ...)], on the fields of the request. *)
Definition join_room (w : World) (socket roomId : string)
    (name roomType : option string) : World * list Delivery :=
  let roomData := activeRooms_get w roomId in
  let room := adapter_rooms_get w roomId in
  match roomData with
  | Some data =>
      if bool_decide (room_type data ≠ roomType) then
        (w, [socket_emit socket (RoomTypeMismatch (room_type data) roomType)])
      else if bool_decide (room_type data = Some "private")
              && room_size_ge room 2 then
        (w, [socket_emit socket RoomFull])
      else enter_room w socket roomId name
  | None =>
      enter_room (set_activeRooms (<[roomId := roomType]>) w)
                 socket roomId name
  end.

(** The argument of a [join-room] event: [{ roomId, username, roomType }]. *)
Record JoinRoomArg := mkJoinRoomArg {
  arg_roomId : string;
  arg_username : option string;
  arg_roomType : option string
}.

(** [socket.on('join-room', ...)] on whatever the client sent. *)
Definition on_join_room (w : World) (socket : string)
    (arg : option JoinRoomArg) : option (World * list Delivery) :=
  destructuring
    (λ a, join_room w socket (arg_roomId a) (arg_username a) (arg_roomType a))
    arg.

(** What can happen to the process, as long as no handler throws: a request
    without argument to a destructuring handler ends the run. *)
Inductive Event :=
  | Connect (socket : string)
  | JoinRoom (socket roomId : string) (name roomType : option string)
  | ChatMessage (socket roomId message messageId : string)
  | MessageSeen (socket roomId messageId : string)
  | Typing (socket roomId : string) (isTyping : bool)
  | Disconnect (socket : string)
  | Upload (err : option string) (file : option UploadedFile)
           (roomId senderId tempId : option string).

Definition handle (w : World) (e : Event) : World * list Delivery :=
  match e with
  | Connect c => (connect c w, [])
  | JoinRoom c r u k => join_room w c r u k
  | ChatMessage c r m i => chat_message w c r m i
  | MessageSeen c r i => message_seen w c r i
  | Typing c r b => typing w c r b
  | Disconnect c => disconnect w c
  | Upload err f r c t => (w, snd (upload w err f r c t))
  end.

(** What the transport guarantees: the id of a new connection is fresh
    (no live socket and no registered room bears it), and socket events
    come from live sockets. *)
Definition allowed (w : World) (e : Event) : bool :=
  match e with
  | Connect c =>
      bool_decide (sockets w !! c = None) &&
      bool_decide (activeRooms w !! c = None)
  | JoinRoom c _ _ _ | ChatMessage c _ _ _ | MessageSeen c _ _
  | Typing c _ _ | Disconnect c => bool_decide (is_Some (sockets w !! c))
  | Upload _ _ _ _ _ => true
  end.

Inductive reachable : World → Prop :=
  | reachable_init : reachable init
  | reachable_step w e :
      reachable w → allowed w e = true → reachable (fst (handle w e)).

(** Running a list of requests one after the other. *)
Fixpoint run (w : World) (es : list Event) : World :=
  match es with
  | [] => w
  | e :: es' => run (fst (handle w e)) es'
  end.

End Server.

(** ** [part_001]: rooms are created by [createRoom], [join-room] is strict *)
Module Strict.

(** [createRoom(socket, username, roomType)]; [roomId] is what
    [nanoid(8)] returned (eight characters, so never "__proto__"), and
    [roomType] one of the two literals of the callers. *)
Definition createRoom (w : World) (roomId : string)
    (socket : string) (name : option string) (roomType : string)
    : World * list Delivery :=
  let w1 := set_activeRooms (<[roomId := Some roomType]>) w in
  let w2 := set_username socket name w1 in
  let w3 := socket_join socket roomId w2 in
  (w3, [socket_emit socket (RoomCreated roomId)]).

(** The body of [socket.on('join-room', ({ roomId, username }) => ...)],
    on the fields of the request. *)
Definition join_room (w : World) (socket roomId : string)
    (name : option string) : World * list Delivery :=
  let roomData := activeRooms_get w roomId in
  match roomData with
  | None => (w, [socket_emit socket RoomNotFound])
  | Some data =>
      let room := adapter_rooms_get w roomId in
      if bool_decide (room_type data = Some "private")
         && room_size_ge room 2 then
        (w, [socket_emit socket RoomFull])
      else enter_room w socket roomId name
  end.

(** The argument of a [join-room] event: [{ roomId, username }]. *)
Record JoinRoomArg := mkJoinRoomArg {
  arg_roomId : string;
  arg_username : option string
}.

(** [socket.on('join-room', ...)] on whatever the client sent. *)
Definition on_join_room (w : World) (socket : string)
    (arg : option JoinRoomArg) : option (World * list Delivery) :=
  destructuring (λ a, join_room w socket (arg_roomId a) (arg_username a)) arg.

Inductive Event :=
  | Connect (socket : string)
  | CreatePrivateRoom (nanoid : string) (socket : string) (name : option string)
  | CreateGroupRoom (nanoid : string) (socket : string) (name : option string)
  | JoinRoom (socket roomId : string) (name : option string)
  | ChatMessage (socket roomId message messageId : string)
  | MessageSeen (socket roomId messageId : string)
  | Typing (socket roomId : string) (isTyping : bool)
  | Disconnect (socket : string)
  | Upload (err : option string) (file : option UploadedFile)
           (roomId senderId tempId : option string).

Definition handle (w : World) (e : Event) : World * list Delivery :=
  match e with
  | Connect c => (connect c w, [])
  | CreatePrivateRoom id c u => createRoom w id c u "private"
  | CreateGroupRoom id c u => createRoom w id c u "group"
  | JoinRoom c r u => join_room w c r u
  | ChatMessage c r m i => chat_message w c r m i
  | MessageSeen c r i => message_seen w c r i
  | Typing c r b => typing w c r b
  | Disconnect c => disconnect w c
  | Upload err f r c t => (w, snd (upload w err f r c t))
  end.

(** As for [server.js]; besides, an id drawn by [nanoid] is fresh: the
    directory has nothing under it ([activeRooms[id]] is [undefined]). *)
Definition allowed (w : World) (e : Event) : bool :=
  match e with
  | Connect c =>
      bool_decide (sockets w !! c = None) &&
      bool_decide (activeRooms w !! c = None)
  | CreatePrivateRoom id c _ | CreateGroupRoom id c _ =>
      bool_decide (is_Some (sockets w !! c)) &&
      bool_decide (activeRooms_get w id = None)
  | JoinRoom c _ _ | ChatMessage c _ _ _ | MessageSeen c _ _
  | Typing c _ _ | Disconnect c => bool_decide (is_Some (sockets w !! c))
  | Upload _ _ _ _ _ => true
  end.

Inductive reachable : World → Prop :=
  | reachable_init : reachable init
  | reachable_step w e :
      reachable w → allowed w e = true → reachable (fst (handle w e)).

End Strict.

(** ** [part_000]: the first relay, no room directory *)
Module Legacy.

(** [socket.on('create-room', ...)]; [roomId] is what [nanoid(8)]
    returned. *)
Definition create_room (w : World) (roomId : string) (socket : string)
    : World * list Delivery :=
  (w, [socket_emit socket (RoomCreated roomId)]).

(** [socket.on('join-room', (roomId) => ...)] *)
Definition join_room (w : World) (socket roomId : string)
    : World * list Delivery :=
  let w1 := socket_join socket roomId w in
  (w1, [socket_to_emit w1 socket roomId (UserJoinedId socket)]).

(** [socket.on('chat-message', ({ roomId, message }) => ...)]:
    "Broadcast message to everyone in the room including the sender". *)
Definition chat_message (w : World) (socket roomId message : string)
    : World * list Delivery :=
  (w, [io_to_emit w roomId (ChatMessageBare message socket)]).

(** [socket.on('typing', ...)] *)
Definition typing (w : World) (socket roomId : string) (isTyping : bool)
    : World * list Delivery :=
  (w, [socket_to_emit w socket roomId (TypingId socket isTyping)]).

(** [socket.on('disconnect', ...)] only logs; the transport drops the
    socket. *)
Definition disconnect (w : World) (socket : string) : World * list Delivery :=
  (remove_socket socket w, []).

(** [app.post('/upload', ...)] of [part_000]: no sender name, no [tempId]. *)
Definition upload (w : World) (err : option string) (file : option UploadedFile)
    (roomId senderId : option string) : Response * list Delivery :=
  match err with
  | Some message => (Status500 message, [])
  | None =>
      match file with
      | None => (Status400 "No file uploaded.", [])
      | Some f =>
          let fileData := fileData_of f in
          (Status200 fileData,
           match truthy roomId with
           | Some r => [io_to_emit w r (FileSharedBare fileData senderId)]
           | None => []
           end)
      end
  end.

End Legacy.

(** ** Vocabulary of the properties *)


(** Every request of a list is one the transport can deliver, each in the
    world the ones before it have left. *)
Fixpoint server_allowed_all (w : World) (es : list Server.Event) : bool :=
  match es with
  | [] => true
  | e :: es' => Server.allowed w e && server_allowed_all (fst (Server.handle w e)) es'
  end.

(** The rejections of [join-room]. *)
Definition is_rejection (p : Payload) : bool :=
  match p with
  | RoomTypeMismatch _ _ | RoomFull | RoomNotFound => true
  | _ => false
  end.

(** What keeps a private room at two members: a room id under which the
    directory has nothing has no member but, at most, the socket it is
    named after, and a room registered as private has at most two. *)
Definition capacity_inv (w : World) : Prop :=
  (∀ r, activeRooms_get w r = None → members w r ⊆ {[r]}) ∧
  (∀ r, activeRooms w !! r = Some (Some "private") →
        size (members w r) ≤ 2).

(** The [user-left] that a disconnecting socket [c] sends to room [r]. *)
Definition user_left_for (w : World) (c r : string) : Delivery :=
  socket_to_emit w c r (UserLeft (username_of w c)).

(** A [join-room] answered with [join-success]. *)
Definition join_succeeded (r : string) (ds : list Delivery) : Prop :=
  Exists (λ d, payload d = JoinSuccess r) ds.

(** A [join-room] answered with one of the rejections. *)
Definition join_rejected (ds : list Delivery) : Prop :=
  Exists (λ d, is_rejection (payload d) = true) ds.

(** A request that keeps room ids apart from socket ids and from the
    inherited property names: a [join-room] whose room id is neither the
    id of a live socket nor a name inherited from [Object.prototype]. *)
Definition server_apart (w : World) (e : Server.Event) : bool :=
  match e with
  | Server.JoinRoom _ r _ _ =>
      bool_decide (sockets w !! r = None) && negb (inherited r)
  | _ => true
  end.

(** The worlds [server.js] reaches when no request asks to join the
    own-id room of a socket or a room named by an inherited property
    name. *)
Inductive reachable_apart : World → Prop :=
  | reachable_apart_init : reachable_apart init
  | reachable_apart_step w e :
      reachable_apart w → Server.allowed w e = true →
      server_apart w e = true → reachable_apart (fst (Server.handle w e)).

Fixpoint server_apart_all (w : World) (es : list Server.Event) : bool :=
  match es with
  | [] => true
  | e :: es' =>
      Server.allowed w e && server_apart w e &&
      server_apart_all (fst (Server.handle w e)) es'
  end.

(** The directory follows membership: the own-id room of a live socket is
    not registered and holds that socket only; any other room id is
    registered exactly when it has a member. *)
Definition directory_inv (w : World) : Prop :=
  (∀ c, is_Some (sockets w !! c) →
        activeRooms w !! c = None ∧ members w c ⊆ {[c]}) ∧
  (∀ r, sockets w !! r = None →
        (is_Some (activeRooms w !! r) ↔ members w r ≠ ∅)).

(** Every live socket is in its own-id room. *)
Definition own_room_inv (w : World) : Prop :=
  ∀ c s, sockets w !! c = Some s → c ∈ rooms s.

(** Running a list of requests of [part_001] one after the other. *)
Fixpoint strict_run (w : World) (es : list Strict.Event) : World :=
  match es with
  | [] => w
  | e :: es' => strict_run (fst (Strict.handle w e)) es'
  end.

(** A request of [part_001] that keeps room ids apart from socket ids and
    from the inherited property names: [nanoid] did not return the id of a
    live socket, and a [join-room] does not name a property inherited from
    [Object.prototype]. *)
Definition strict_apart (w : World) (e : Strict.Event) : bool :=
  match e with
  | Strict.CreatePrivateRoom id _ _ | Strict.CreateGroupRoom id _ _ =>
      bool_decide (sockets w !! id = None)
  | Strict.JoinRoom _ r _ => negb (inherited r)
  | _ => true
  end.

(** The worlds [part_001] reaches with such ids. *)
Inductive strict_reachable_apart : World → Prop :=
  | strict_reachable_apart_init : strict_reachable_apart init
  | strict_reachable_apart_step w e :
      strict_reachable_apart w → Strict.allowed w e = true →
      strict_apart w e = true →
      strict_reachable_apart (fst (Strict.handle w e)).

Fixpoint strict_apart_all (w : World) (es : list Strict.Event) : bool :=
  match es with
  | [] => true
  | e :: es' =>
      Strict.allowed w e && strict_apart w e &&
      strict_apart_all (fst (Strict.handle w e)) es'
  end.

(** The emissions of a list that reach socket [c]. *)
Definition reaching (c : string) (ds : list Delivery) : list Delivery :=
  filter (λ d, c ∈ recipients d) ds.

(** The [join-room] requests of server.js for room [r] with kind [k], one
    per (socket, user name) of the list. *)
Definition joins_of_kind (r : string) (k : option string)
    (reqs : list (string * option string)) : list Server.Event :=
  map (λ cu, Server.JoinRoom cu.1 r cu.2 k) reqs.

(** * Properties *)

(** ** Membership under the transport operations *)
Section membership.
Implicit Types (w : World) (c r x : string) (s : Socket).

Lemma elem_of_members w r x :
  x ∈ members w r ↔ ∃ s, sockets w !! x = Some s ∧ r ∈ rooms s.
Proof.
  unfold members. rewrite elem_of_dom. unfold is_Some.
  setoid_rewrite map_lookup_filter_Some. naive_solver.
Qed.

Lemma members_set_activeRooms f w r :
  members (set_activeRooms f w) r = members w r.
Proof. reflexivity. Qed.

Lemma members_set_username c u w r :
  members (set_username c u w) r = members w r.
Proof.
  apply set_eq. intros x. rewrite !elem_of_members. simpl.
  destruct (decide (c = x)) as [->|Hne].
  - rewrite lookup_alter_eq. destruct (sockets w !! x) as [s|]; simpl;
      naive_solver.
  - rewrite lookup_alter_ne by done. reflexivity.
Qed.

Lemma members_socket_join c r' w r :
  members (socket_join c r' w) r =
  if decide (r = r' ∧ is_Some (sockets w !! c))
  then members w r ∪ {[c]} else members w r.
Proof.
  apply set_eq. intros x.
  assert (Hx : x ∈ members (socket_join c r' w) r ↔
               x ∈ members w r ∨ (x = c ∧ r = r' ∧ is_Some (sockets w !! c))).
  { rewrite !elem_of_members. simpl.
    destruct (decide (c = x)) as [->|Hne].
    - rewrite lookup_alter_eq.
      destruct (sockets w !! x) as [s|] eqn:Hs; simpl.
      + split.
        * intros (s' & [= <-] & Hin). simpl in Hin.
          destruct (decide (r' ∈ rooms s)) as [Hr'|Hr'].
          -- left. eauto.
          -- apply elem_of_app in Hin as [Hin|Hin]; [left; eauto|].
             apply list_elem_of_singleton in Hin. right. eauto.
        * intros [(s' & [= <-] & Hin)|(_ & -> & _)];
            (eexists; split; [reflexivity|]); simpl;
            destruct (decide (_ ∈ rooms s)); try done;
            apply elem_of_app; [by left|right; by apply list_elem_of_singleton].
      + split; [naive_solver|].
        intros [(s' & ? & _)|(_ & _ & [? ?])]; done.
    - rewrite lookup_alter_ne by done. naive_solver. }
  rewrite Hx. case_decide; set_solver.
Qed.

Lemma members_remove_socket c w r :
  members (remove_socket c w) r = members w r ∖ {[c]}.
Proof.
  apply set_eq. intros x.
  rewrite elem_of_difference, !elem_of_members, elem_of_singleton. simpl.
  destruct (decide (c = x)) as [->|Hne].
  - rewrite lookup_delete_eq. naive_solver.
  - rewrite lookup_delete_ne by done. naive_solver.
Qed.

Lemma members_connect c w r :
  sockets w !! c = None →
  members (connect c w) r =
  if decide (r = c) then members w r ∪ {[c]} else members w r.
Proof.
  intros Hc. apply set_eq. intros x.
  assert (Hx : x ∈ members (connect c w) r ↔
               x ∈ members w r ∨ (x = c ∧ r = c)).
  { rewrite !elem_of_members. simpl.
    destruct (decide (c = x)) as [->|Hne].
    - rewrite lookup_insert_eq, Hc. split.
      + intros (s & [= <-] & Hin). simpl in Hin.
        apply list_elem_of_singleton in Hin. eauto.
      + intros [(? & ? & _)|(_ & ->)]; [done|].
        eexists; split; [reflexivity|]. simpl. by apply list_elem_of_singleton.
    - rewrite lookup_insert_ne by done. naive_solver. }
  rewrite Hx. case_decide; set_solver.
Qed.

Lemma members_connected w r x : x ∈ members w r → is_Some (sockets w !! x).
Proof. rewrite elem_of_members. intros (s & -> & _). eauto. Qed.

Lemma elem_of_rooms_of w c r : r ∈ rooms_of w c ↔ c ∈ members w r.
Proof.
  rewrite elem_of_members. unfold rooms_of.
  destruct (sockets w !! c) as [s|]; simpl; [naive_solver|].
  split; [by intros ?%elem_of_nil|naive_solver].
Qed.

End membership.

(** ** The [disconnecting] handler *)
Section disconnecting.
Implicit Types (w : World) (c r : string) (rs : list string).

Lemma members_ext w w' r : sockets w = sockets w' → members w r = members w' r.
Proof. unfold members. by intros ->. Qed.

Lemma room_size_ge_members w r n :
  0 < n → room_size_ge (adapter_rooms_get w r) n = bool_decide (n ≤ size (members w r)).
Proof.
  intros Hn. unfold adapter_rooms_get. case_decide as Hm; simpl; [|done].
  rewrite Hm, size_empty. symmetry. apply bool_decide_eq_false. lia.
Qed.

Lemma room_size_is_members w r n :
  0 < n → room_size_is (adapter_rooms_get w r) n = bool_decide (size (members w r) = n).
Proof.
  intros Hn. unfold adapter_rooms_get. case_decide as Hm; simpl; [|done].
  rewrite Hm, size_empty. symmetry. apply bool_decide_eq_false. lia.
Qed.

(** The loop only ever touches the directory. *)
Lemma disconnecting_loop_sockets rs w c :
  sockets (fst (disconnecting_loop w c rs)) = sockets w.
Proof.
  revert w. induction rs as [|room rs IH]; intros w; simpl; [done|].
  case_bool_decide; [|apply IH].
  match goal with |- context [disconnecting_loop ?w' c rs] =>
    specialize (IH w'); destruct (disconnecting_loop w' c rs) as [w'' ds] end.
  simpl in *. rewrite IH. by destruct (room_size_is _ _).
Qed.

(** The directory after the loop: exactly the visited rooms, other than
    the socket's own, whose only member was the socket are gone. *)
Lemma disconnecting_loop_activeRooms rs w c r :
  activeRooms (fst (disconnecting_loop w c rs)) !! r =
  if decide (r ∈ rs ∧ r ≠ c ∧ size (members w r) = 1)
  then None else activeRooms w !! r.
Proof.
  revert w. induction rs as [|room rs IH]; intros w; cbn [disconnecting_loop fst].
  - case_decide as H; [|done]. by destruct H as [?%elem_of_nil _].
  - case_bool_decide as Hroom.
    + rewrite room_size_is_members by lia.
      set (w1 := if bool_decide _ then _ else w).
      specialize (IH w1).
      assert (Hm : members w1 r = members w r).
      { apply members_ext. subst w1. by case_bool_decide. }
      destruct (disconnecting_loop w1 c rs) as [w'' ds]. cbn [fst] in *.
      rewrite IH, Hm.
      destruct (decide (r ∈ rs ∧ r ≠ c ∧ size (members w r) = 1))
        as [(?&?&?)|H1].
      * rewrite decide_True; [done|].
        split_and!; [by apply list_elem_of_further|done|done].
      * destruct (decide (r ∈ room :: rs ∧ r ≠ c ∧ size (members w r) = 1))
          as [(Hin & Hne & Hsz)|H2].
        -- apply elem_of_cons in Hin as [->|Hin]; [|naive_solver].
           subst w1. rewrite bool_decide_eq_true_2 by done.
           apply lookup_delete_eq.
        -- subst w1. case_bool_decide as Hsz; [|done]. simpl.
           rewrite lookup_delete_ne; [done|]. intros <-. apply H2.
           split_and!; [apply list_elem_of_here|done|done].
    + assert (room = c) as -> by (by destruct (decide (room = c))).
      rewrite IH.
      destruct (decide (r ∈ rs ∧ r ≠ c ∧ size (members w r) = 1))
        as [(?&?&?)|H1].
      * rewrite decide_True; [done|].
        split_and!; [by apply list_elem_of_further|done|done].
      * rewrite decide_False; [done|]. intros (Hin & Hne & Hsz).
        apply elem_of_cons in Hin as [->|Hin]; naive_solver.
Qed.

(** The emissions of the loop: one [user-left] per visited room other
    than the socket's own, in the order of the visit, each to the members
    the room has while the socket is still in it, the socket excepted. *)
Lemma disconnecting_loop_deliveries rs w c :
  snd (disconnecting_loop w c rs) =
  map (λ r, socket_to_emit w c r (UserLeft (username_of w c)))
      (filter (λ r, r ≠ c) rs).
Proof.
  revert w. induction rs as [|room rs IH]; intros w; simpl; [done|].
  case_bool_decide as Hroom.
  - rewrite filter_cons_True by exact Hroom.
    match goal with |- context [disconnecting_loop ?w' c rs] =>
      pose proof (IH w') as IH'; set (w1 := w') in *;
      destruct (disconnecting_loop w1 c rs) as [w'' ds] end.
    simpl in *. rewrite IH'. f_equal.
    assert (Hs : sockets w1 = sockets w).
    { subst w1. by destruct (room_size_is _ _). }
    apply map_ext. intros x. unfold socket_to_emit, username_of.
    rewrite (members_ext w1 w x Hs). by rewrite Hs.
  - rewrite filter_cons_False by (by intros []). apply IH.
Qed.

Lemma disconnect_members w c r :
  members (fst (disconnect w c)) r = members w r ∖ {[c]}.
Proof.
  unfold disconnect, disconnecting.
  pose proof (disconnecting_loop_sockets (rooms_of w c) w c) as Hs.
  destruct (disconnecting_loop w c (rooms_of w c)) as [w' ds]. simpl in *.
  rewrite members_remove_socket. by rewrite (members_ext w' w).
Qed.

Lemma disconnect_activeRooms w c r :
  activeRooms (fst (disconnect w c)) !! r =
  if decide (r ≠ c ∧ members w r = {[c]}) then None else activeRooms w !! r.
Proof.
  unfold disconnect, disconnecting.
  pose proof (disconnecting_loop_activeRooms (rooms_of w c) w c r) as Ha.
  destruct (disconnecting_loop w c (rooms_of w c)) as [w' ds]. simpl in *.
  rewrite Ha.
  destruct (decide (r ≠ c ∧ members w r = {[c]})) as [[Hne Hm]|Hn].
  - rewrite decide_True; [done|]. split_and!; [|done|].
    + apply elem_of_rooms_of. rewrite Hm. set_solver.
    + rewrite Hm. apply size_singleton.
  - rewrite decide_False; [done|].
    intros (Hin%elem_of_rooms_of & Hne & Hsz). apply Hn.
    split; [done|]. apply size_1_elem_of in Hsz as [x Hx].
    apply leibniz_equiv in Hx. rewrite Hx in *. set_solver.
Qed.

End disconnecting.

(** ** Reading the directory *)
Section lookup.
Implicit Types (w : World) (c r : string) (u k : option string).

Lemma activeRooms_get_entry w r t :
  activeRooms w !! r = Some t → activeRooms_get w r = Some (RoomEntry t).
Proof. intros H. unfold activeRooms_get. by rewrite H. Qed.

Lemma activeRooms_get_inherited w r :
  activeRooms w !! r = None → inherited r = true →
  activeRooms_get w r = Some InheritedMember.
Proof. intros H Hi. unfold activeRooms_get. by rewrite H, Hi. Qed.

Lemma activeRooms_get_None w r :
  activeRooms_get w r = None ↔ activeRooms w !! r = None ∧ inherited r = false.
Proof.
  unfold activeRooms_get.
  destruct (activeRooms w !! r); [naive_solver|].
  destruct (inherited r); naive_solver.
Qed.

(** The five ways out of [join-room] in [server.js], with what decides
    each: the kind differs from what the lookup gives; the room is private
    and full; the socket enters a registered room; it enters under an
    inherited name, for which nothing is registered; it enters a room
    that the handler registers. *)
Lemma server_join_room_outcome w c r u k :
  (∃ data, activeRooms_get w r = Some data ∧ room_type data ≠ k ∧
     Server.join_room w c r u k =
       (w, [socket_emit c (RoomTypeMismatch (room_type data) k)])) ∨
  (activeRooms w !! r = Some (Some "private") ∧ k = Some "private" ∧
     2 ≤ size (members w r) ∧
     Server.join_room w c r u k = (w, [socket_emit c RoomFull])) ∨
  (activeRooms w !! r = Some k ∧
     (k = Some "private" → size (members w r) < 2) ∧
     Server.join_room w c r u k = enter_room w c r u) ∨
  (activeRooms w !! r = None ∧ inherited r = true ∧ k = None ∧
     Server.join_room w c r u k = enter_room w c r u) ∨
  (activeRooms_get w r = None ∧
     Server.join_room w c r u k =
       enter_room (set_activeRooms (<[r := k]>) w) c r u).
Proof.
  unfold Server.join_room.
  destruct (activeRooms_get w r) as [data|] eqn:Hget; [|by do 4 right].
  case_bool_decide as Hk; [left; eauto|]. right.
  assert (room_type data = k) as Ht by (by destruct (decide (room_type data = k))).
  rewrite room_size_ge_members by lia.
  unfold activeRooms_get in Hget.
  destruct (activeRooms w !! r) as [t|] eqn:Hr.
  - injection Hget as <-. simpl in *. subst t.
    destruct (bool_decide (k = Some "private")) eqn:Hp; simpl.
    + apply bool_decide_eq_true in Hp as ->.
      case_bool_decide; [left; done|]. right. left.
      split_and!; [done| |done]. intros _. lia.
    + apply bool_decide_eq_false in Hp. right. left. done.
  - destruct (inherited r) eqn:Hi; [|done]. injection Hget as <-.
    simpl in *. subst k. simpl. right. right. left. done.
Qed.

(** The four ways out of the [join-room] of [part_001]: nothing under the
    id; the room is private and full; the socket enters a registered room;
    it enters under an inherited name, for which nothing is registered. *)
Lemma strict_join_room_outcome w c r u :
  (activeRooms_get w r = None ∧
     Strict.join_room w c r u = (w, [socket_emit c RoomNotFound])) ∨
  (activeRooms w !! r = Some (Some "private") ∧ 2 ≤ size (members w r) ∧
     Strict.join_room w c r u = (w, [socket_emit c RoomFull])) ∨
  (∃ k, activeRooms w !! r = Some k ∧
     (k = Some "private" → size (members w r) < 2) ∧
     Strict.join_room w c r u = enter_room w c r u) ∨
  (activeRooms w !! r = None ∧ inherited r = true ∧
     Strict.join_room w c r u = enter_room w c r u).
Proof.
  unfold Strict.join_room.
  destruct (activeRooms_get w r) as [data|] eqn:Hget; [|left; done]. right.
  rewrite room_size_ge_members by lia.
  unfold activeRooms_get in Hget.
  destruct (activeRooms w !! r) as [t|] eqn:Hr.
  - injection Hget as <-. simpl.
    destruct (bool_decide (t = Some "private")) eqn:Hp; simpl.
    + apply bool_decide_eq_true in Hp as ->.
      case_bool_decide; [left; done|]. right. left. exists (Some "private").
      split_and!; [done| |done]. intros _. lia.
    + apply bool_decide_eq_false in Hp. right. left. exists t. done.
  - destruct (inherited r) eqn:Hi; [|done]. injection Hget as <-.
    simpl. right. right. done.
Qed.

End lookup.

(** ** The registered kind of a room *)
Section kind.
Implicit Types (w : World) (c r : string) (u k : option string).

Lemma enter_room_activeRooms w c r u :
  activeRooms (fst (enter_room w c r u)) = activeRooms w.
Proof. reflexivity. Qed.

Lemma join_room_unregistered w c r u k :
  activeRooms_get w r = None →
  Server.join_room w c r u k =
  enter_room (set_activeRooms (<[r := k]>) w) c r u.
Proof. intros H. unfold Server.join_room. by rewrite H. Qed.

Lemma join_room_mismatch w c r u k k0 :
  activeRooms w !! r = Some k0 → k ≠ k0 →
  Server.join_room w c r u k = (w, [socket_emit c (RoomTypeMismatch k0 k)]).
Proof.
  intros H Hk. unfold Server.join_room.
  rewrite (activeRooms_get_entry w r k0) by done. cbn [room_type].
  rewrite bool_decide_eq_true_2; [done|congruence].
Qed.

(** A [join-room] never changes the kind a room is registered with. *)
Lemma join_room_keeps_kind w c r' u k r k0 :
  activeRooms w !! r = Some k0 →
  activeRooms (fst (Server.join_room w c r' u k)) !! r = Some k0.
Proof.
  intros H.
  destruct (server_join_room_outcome w c r' u k)
    as [(d & _ & _ & E)|[(_ & _ & _ & E)|[(_ & _ & E)|
        [(_ & _ & _ & E)|(Hn & E)]]]]; rewrite E; try done.
  simpl. apply activeRooms_get_None in Hn as [Hn _].
  rewrite lookup_insert_ne; [done|]. intros ->. congruence.
Qed.



End kind.




(** ** Capacity of private rooms *)
Section capacity.
Implicit Types (w : World) (c r : string) (u k : option string).

Lemma enter_room_members w c r u r' :
  members (fst (enter_room w c r u)) r' =
  if decide (r' = r ∧ is_Some (sockets w !! c))
  then members w r' ∪ {[c]} else members w r'.
Proof.
  unfold enter_room. cbn [fst].
  rewrite members_socket_join, members_set_username.
  assert (Hc : is_Some (sockets (set_username c u w) !! c) ↔
               is_Some (sockets w !! c)).
  { simpl. rewrite lookup_alter_eq. apply fmap_is_Some. }
  destruct (decide (r' = r ∧ is_Some (sockets w !! c))) as [[-> H]|H].
  - rewrite decide_True; [done|]. by rewrite Hc.
  - rewrite decide_False; [done|]. rewrite Hc. done.
Qed.

Lemma enter_room_members_size w c r u r' :
  size (members (fst (enter_room w c r u)) r') ≤
  if decide (r' = r) then S (size (members w r')) else size (members w r').
Proof.
  rewrite enter_room_members.
  destruct (decide (r' = r)) as [->|Hne].
  - case_decide; [|lia].
    rewrite size_union_alt.
    assert (size ({[c]} ∖ members w r : gset string) ≤ 1); [|lia].
    rewrite <- (size_singleton (C := gset string) c).
    apply subseteq_size. set_solver.
  - rewrite decide_False by naive_solver. done.
Qed.

Lemma size_subseteq_singleton (X : gset string) (x : string) :
  X ⊆ {[x]} → size X ≤ 1.
Proof. intros H%subseteq_size. by rewrite size_singleton in H. Qed.

Lemma capacity_inv_init : capacity_inv init.
Proof.
  split; intros r; [|cbn [init activeRooms]; by rewrite lookup_empty].
  intros _ x. rewrite elem_of_members. cbn [init sockets].
  rewrite lookup_empty. naive_solver.
Qed.

Lemma capacity_inv_connect w c :
  capacity_inv w → sockets w !! c = None → activeRooms w !! c = None →
  capacity_inv (connect c w).
Proof.
  intros [I1 I2] Hc Ha. split; intros r Hr;
    rewrite members_connect by done.
  - change (activeRooms_get w r = None) in Hr.
    case_decide as E; [subst r|by apply I1].
    specialize (I1 c Hr). set_solver.
  - change (activeRooms w !! r = Some (Some "private")) in Hr.
    rewrite decide_False by congruence. by apply I2.
Qed.

(** Entering a room that the same handler has just registered. *)
Lemma capacity_inv_register w c r u k :
  capacity_inv w → activeRooms_get w r = None →
  capacity_inv (fst (enter_room (set_activeRooms (<[r := k]>) w) c r u)).
Proof.
  intros [I1 I2] Hr. split; intros r' Hr'.
  - apply activeRooms_get_None in Hr' as [Hr' Hi]. simpl in Hr'.
    destruct (decide (r' = r)) as [->|Hne];
      [by rewrite lookup_insert_eq in Hr'|].
    rewrite lookup_insert_ne in Hr' by done.
    rewrite enter_room_members, decide_False by naive_solver.
    apply I1. by apply activeRooms_get_None.
  - simpl in Hr'. etrans; [apply enter_room_members_size|].
    rewrite members_set_activeRooms.
    destruct (decide (r' = r)) as [->|Hne].
    + specialize (I1 r Hr). apply size_subseteq_singleton in I1. lia.
    + rewrite lookup_insert_ne in Hr' by done. by apply I2.
Qed.

(** Entering a room under which the directory has something, past the
    size check. *)
Lemma capacity_inv_enter w c r u :
  capacity_inv w → activeRooms_get w r ≠ None →
  (activeRooms w !! r = Some (Some "private") → size (members w r) < 2) →
  capacity_inv (fst (enter_room w c r u)).
Proof.
  intros [I1 I2] Hr Hsz. split; intros r' Hr'.
  - change (activeRooms_get w r' = None) in Hr'.
    rewrite enter_room_members, decide_False; [by apply I1|].
    intros [-> _]. congruence.
  - change (activeRooms w !! r' = Some (Some "private")) in Hr'.
    etrans; [apply enter_room_members_size|].
    destruct (decide (r' = r)) as [->|Hne]; [|by apply I2].
    specialize (Hsz Hr'). lia.
Qed.

Lemma capacity_inv_disconnect w c :
  capacity_inv w → capacity_inv (fst (disconnect w c)).
Proof.
  intros [I1 I2]. split; intros r.
  - rewrite activeRooms_get_None, disconnect_activeRooms, disconnect_members.
    intros [Hr Hi]. case_decide as E.
    + destruct E as [_ ->]. set_solver.
    + assert (members w r ⊆ {[r]}); [|set_solver].
      apply I1. by apply activeRooms_get_None.
  - rewrite disconnect_activeRooms, disconnect_members. intros Hr.
    case_decide; [done|]. specialize (I2 r Hr).
    etrans; [|exact I2]. apply subseteq_size. set_solver.
Qed.

Lemma server_join_room_capacity w c r u k :
  capacity_inv w → capacity_inv (fst (Server.join_room w c r u k)).
Proof.
  intros I.
  destruct (server_join_room_outcome w c r u k)
    as [(d & _ & _ & E)|[(_ & _ & _ & E)|[(Hr & Hsz & E)|
        [(Hr & Hi & _ & E)|(Hn & E)]]]]; rewrite E; try done.
  - apply capacity_inv_enter; [done| |].
    + by rewrite (activeRooms_get_entry w r k).
    + intros Hp. apply Hsz. congruence.
  - apply capacity_inv_enter; [done| |congruence].
    by rewrite activeRooms_get_inherited.
  - by apply capacity_inv_register.
Qed.

Lemma server_reachable_capacity w : Server.reachable w → capacity_inv w.
Proof.
  induction 1 as [|w e _ IH Hal]; [apply capacity_inv_init|].
  destruct e; simpl in *; try done.
  - apply andb_prop in Hal as [H1%bool_decide_eq_true H2%bool_decide_eq_true].
    by apply capacity_inv_connect.
  - by apply server_join_room_capacity.
  - by apply capacity_inv_disconnect.
Qed.

Lemma strict_createRoom_capacity w id c u (roomType : string) :
  capacity_inv w → activeRooms_get w id = None →
  capacity_inv (fst (Strict.createRoom w id c u roomType)).
Proof.
  intros I Hid. by apply (capacity_inv_register w c id u (Some roomType)).
Qed.

Lemma strict_join_room_capacity w c r u :
  capacity_inv w → capacity_inv (fst (Strict.join_room w c r u)).
Proof.
  intros I.
  destruct (strict_join_room_outcome w c r u)
    as [(_ & E)|[(_ & _ & E)|[(k & Hr & Hsz & E)|(Hr & Hi & E)]]];
    rewrite E; try done.
  - apply capacity_inv_enter; [done| |].
    + by rewrite (activeRooms_get_entry w r k).
    + intros Hp. apply Hsz. congruence.
  - apply capacity_inv_enter; [done| |congruence].
    by rewrite activeRooms_get_inherited.
Qed.

Lemma strict_reachable_capacity w : Strict.reachable w → capacity_inv w.
Proof.
  induction 1 as [|w e _ IH Hal]; [apply capacity_inv_init|].
  destruct e; simpl in *; try done.
  - apply andb_prop in Hal as [H1%bool_decide_eq_true H2%bool_decide_eq_true].
    by apply capacity_inv_connect.
  - apply andb_prop in Hal as [_ H2%bool_decide_eq_true].
    by apply strict_createRoom_capacity.
  - apply andb_prop in Hal as [_ H2%bool_decide_eq_true].
    by apply strict_createRoom_capacity.
  - by apply strict_join_room_capacity.
  - by apply capacity_inv_disconnect.
Qed.

(** A full private room turns a matching request away. *)
Lemma server_join_room_full w c r u :
  activeRooms w !! r = Some (Some "private") → 2 ≤ size (members w r) →
  Server.join_room w c r u (Some "private") = (w, [socket_emit c RoomFull]).
Proof.
  intros Hr Hsz. unfold Server.join_room.
  rewrite (activeRooms_get_entry w r (Some "private")) by done.
  cbn [room_type].
  rewrite bool_decide_eq_false_2 by (by intros []).
  rewrite room_size_ge_members by lia.
  by rewrite !bool_decide_eq_true_2.
Qed.

Lemma strict_join_room_full w c r u :
  activeRooms w !! r = Some (Some "private") → 2 ≤ size (members w r) →
  Strict.join_room w c r u = (w, [socket_emit c RoomFull]).
Proof.
  intros Hr Hsz. unfold Strict.join_room.
  rewrite (activeRooms_get_entry w r (Some "private")) by done.
  cbn [room_type].
  rewrite room_size_ge_members by lia.
  by rewrite !bool_decide_eq_true_2.
Qed.

Lemma server_reachable_run es w :
  Server.reachable w → server_allowed_all w es = true →
  Server.reachable (Server.run w es).
Proof.
  revert w. induction es as [|e es IH]; intros w Hw Hal; simpl in *; [done|].
  apply andb_prop in Hal as [He Hes]. apply IH; [|done].
  by apply Server.reachable_step.
Qed.

End capacity.

(** C2. In every world the server can reach ([server.js] and [part_001]
    alike), a room registered as private has at most two members. A
    [join-room] request for a private room (in [server.js] the request names
    the kind, private; in [part_001] it names none) made when the room has
    two members is answered with [room-full], to the requester alone, and
    changes nothing: the world after is the world before. (In [server.js] a
    request that names another kind is turned away one check earlier, with
    [room-type-mismatch], and changes nothing either.) *)
Theorem C2_private_room_capacity (w : World) (r : string) :
  Server.reachable w ∨ Strict.reachable w →
  activeRooms w !! r = Some (Some "private") →
  size (members w r) ≤ 2 ∧
  (size (members w r) = 2 →
   ∀ c u,
     Server.join_room w c r u (Some "private")
       = (w, [socket_emit c RoomFull]) ∧
     Strict.join_room w c r u = (w, [socket_emit c RoomFull]) ∧
     ∀ k, k ≠ Some "private" →
          Server.join_room w c r u k =
            (w, [socket_emit c (RoomTypeMismatch (Some "private") k)])).
Proof.
  intros Hreach Hr. split.
  - assert (capacity_inv w) as [_ I2]; [|by apply I2].
    destruct Hreach;
      [by apply server_reachable_capacity|by apply strict_reachable_capacity].
  - intros Hsz c u. split_and!.
    + apply server_join_room_full; [done|lia].
    + apply strict_join_room_full; [done|lia].
    + intros k Hk. by apply join_room_mismatch.
Qed.

Lemma C2_private_room_capacity_witness :
  let w := Server.run init
             [Server.Connect "X"; Server.Connect "Y"; Server.Connect "Z";
              Server.JoinRoom "X" "p1" (Some "alice") (Some "private");
              Server.JoinRoom "Y" "p1" (Some "bob") (Some "private")] in
  members w "p1" = {["X"; "Y"]} ∧
  size (members w "p1") ≤ 2 ∧
  Server.join_room w "Z" "p1" (Some "carol") (Some "private")
    = (w, [socket_emit "Z" RoomFull]).
Proof.
  intros w.
  assert (Hreach : Server.reachable w).
  { apply server_reachable_run; [apply Server.reachable_init|].
    vm_compute. reflexivity. }
  destruct (C2_private_room_capacity w "p1" (or_introl Hreach)) as [Hle Hfull].
  { vm_compute. reflexivity. }
  split_and!; [vm_compute; reflexivity|exact Hle|].
  apply (Hfull ltac:(vm_compute; reflexivity) "Z" (Some "carol")).
Defined.

(** ** Presence on join, rejections *)
Section joining.
Implicit Types (w : World) (c r : string) (u k : option string).

Lemma enter_room_deliveries w c r u :
  snd (enter_room w c r u) =
  [mkDelivery (members w r ∖ {[c]}) (UserJoined u);
   socket_emit c (JoinSuccess r)].
Proof.
  pose proof (enter_room_members w c r u r) as Hm.
  unfold enter_room in *. cbn [fst snd] in *. unfold socket_to_emit.
  rewrite Hm. do 2 f_equal. case_decide; set_solver.
Qed.

Lemma enter_room_username w c r u :
  is_Some (sockets w !! c) →
  username_of (fst (enter_room w c r u)) c = u.
Proof.
  intros [s Hs]. unfold enter_room, username_of. simpl.
  rewrite !lookup_alter_eq, Hs. reflexivity.
Qed.

Lemma enter_room_not_rejected w c r u : ¬ join_rejected (snd (enter_room w c r u)).
Proof.
  rewrite enter_room_deliveries. unfold join_rejected.
  rewrite !Exists_cons, Exists_nil. simpl. naive_solver.
Qed.

(** The three ways out of [join-room] in [server.js]. *)
Lemma server_join_room_cases w c r u k :
  (∃ k0, k0 ≠ k ∧
     Server.join_room w c r u k = (w, [socket_emit c (RoomTypeMismatch k0 k)])) ∨
  (activeRooms w !! r = Some (Some "private") ∧ k = Some "private" ∧
     2 ≤ size (members w r) ∧
     Server.join_room w c r u k = (w, [socket_emit c RoomFull])) ∨
  (∃ w0, sockets w0 = sockets w ∧
     Server.join_room w c r u k = enter_room w0 c r u).
Proof.
  destruct (server_join_room_outcome w c r u k)
    as [(d & _ & Hne & E)|[H|[(_ & _ & E)|[(_ & _ & _ & E)|(_ & E)]]]].
  - left. eauto.
  - right. left. done.
  - right. right. exists w. done.
  - right. right. exists w. done.
  - right. right. exists (set_activeRooms (<[r := k]>) w). done.
Qed.

(** The three ways out of [join-room] in [part_001]. *)
Lemma strict_join_room_cases w c r u :
  (activeRooms_get w r = None ∧
     Strict.join_room w c r u = (w, [socket_emit c RoomNotFound])) ∨
  (activeRooms w !! r = Some (Some "private") ∧ 2 ≤ size (members w r) ∧
     Strict.join_room w c r u = (w, [socket_emit c RoomFull])) ∨
  Strict.join_room w c r u = enter_room w c r u.
Proof.
  destruct (strict_join_room_outcome w c r u)
    as [H|[H|[(k & _ & _ & E)|(_ & _ & E)]]]; eauto.
Qed.

End joining.

(** C4. In [server.js], whenever a [join-room] request of a live socket is
    answered with [join-success], the handler makes exactly two emissions:
    [user-joined] with the user name of the request, which from then on is
    the joiner's display name, delivered to exactly the sockets that were
    members of the room before the request, the joiner excepted; and
    [join-success] with the room id, delivered to the joiner alone. So the
    joiner is not a recipient of [user-joined]. *)
Theorem C4_join_presence (w : World) (c r : string) (u k : option string) :
  is_Some (sockets w !! c) →
  join_succeeded r (snd (Server.join_room w c r u k)) →
  snd (Server.join_room w c r u k) =
    [mkDelivery (members w r ∖ {[c]}) (UserJoined u);
     mkDelivery {[c]} (JoinSuccess r)] ∧
  username_of (fst (Server.join_room w c r u k)) c = u ∧
  members (fst (Server.join_room w c r u k)) r = members w r ∪ {[c]} ∧
  c ∉ members w r ∖ {[c]}.
Proof.
  intros Hc Hok.
  destruct (server_join_room_cases w c r u k)
    as [(k0 & _ & E)|[(_ & _ & _ & E)|(w0 & Hs & E)]]; rewrite E in *.
  - unfold join_succeeded in Hok. simpl in Hok.
    rewrite Exists_cons, Exists_nil in Hok. naive_solver.
  - unfold join_succeeded in Hok. simpl in Hok.
    rewrite Exists_cons, Exists_nil in Hok. naive_solver.
  - rewrite enter_room_deliveries, enter_room_members.
    rewrite (members_ext w0 w) by done. rewrite Hs.
    split_and!; [done| |by rewrite decide_True|set_solver].
    apply enter_room_username. by rewrite Hs.
Qed.

Lemma C4_join_presence_witness :
  let w := Server.run init
             [Server.Connect "X"; Server.Connect "Y";
              Server.JoinRoom "X" "abc123" (Some "alice") (Some "group")] in
  snd (Server.join_room w "Y" "abc123" (Some "bob") (Some "group")) =
    [mkDelivery {["X"]} (UserJoined (Some "bob"));
     mkDelivery {["Y"]} (JoinSuccess "abc123")].
Proof.
  intros w.
  destruct (C4_join_presence w "Y" "abc123" (Some "bob") (Some "group"))
    as (E & _).
  - vm_compute. eauto.
  - vm_compute. apply Exists_cons_tl, Exists_cons_hd. reflexivity.
  - rewrite E. vm_compute. reflexivity.
Defined.

(** C7. A [join-room] request that is rejected, in [server.js]
    ([room-type-mismatch], [room-full]) or in [part_001] ([room-not-found],
    [room-full]), makes one emission only, the rejection, delivered to the
    requesting socket alone, and leaves the world as it was: directory,
    memberships and display names, the requester's included. *)
Theorem C7_rejection_changes_nothing
    (w : World) (c r : string) (u k : option string)
    (w' : World) (ds : list Delivery) :
  Server.join_room w c r u k = (w', ds) ∨ Strict.join_room w c r u = (w', ds) →
  join_rejected ds →
  w' = w ∧ ∃ p, is_rejection p = true ∧ ds = [mkDelivery {[c]} p].
Proof.
  intros [E|E] Hrej.
  - destruct (server_join_room_cases w c r u k)
      as [(k0 & _ & E')|[(_ & _ & _ & E')|(w0 & Hs & E')]];
      rewrite E' in E.
    + injection E as <- <-. split; [done|]. by exists (RoomTypeMismatch k0 k).
    + injection E as <- <-. split; [done|]. by exists RoomFull.
    + exfalso. apply (enter_room_not_rejected w0 c r u). by rewrite E.
  - destruct (strict_join_room_cases w c r u)
      as [(_ & E')|[(_ & _ & E')|E']]; rewrite E' in E.
    + injection E as <- <-. split; [done|]. by exists RoomNotFound.
    + injection E as <- <-. split; [done|]. by exists RoomFull.
    + exfalso. apply (enter_room_not_rejected w c r u). by rewrite E.
Qed.

Lemma C7_rejection_changes_nothing_witness :
  let w := Server.run init
             [Server.Connect "X"; Server.Connect "Z";
              Server.JoinRoom "X" "abc123" (Some "alice") (Some "group")] in
  ∃ p, is_rejection p = true ∧
       Server.join_room w "Z" "abc123" (Some "carol") (Some "private") =
         (w, [mkDelivery {["Z"]} p]).
Proof.
  intros w.
  destruct (C7_rejection_changes_nothing w "Z" "abc123"
              (Some "carol") (Some "private") w
              [socket_emit "Z" (RoomTypeMismatch (Some "group") (Some "private"))])
    as (_ & p & Hp & E).
  - left. vm_compute. reflexivity.
  - apply Exists_cons_hd. reflexivity.
  - exists p. split; [exact Hp|]. rewrite <- E. vm_compute. reflexivity.
Defined.

(** C10. The size check of a private room counts whoever is in it: when a
    room registered as private has exactly two members, a [join-room]
    request for it from one of those two (asking for a private room, in
    [server.js]) is answered with [room-full], and nothing changes. *)
Theorem C10_member_rejoin_is_refused
    (w : World) (c r : string) (u : option string) :
  activeRooms w !! r = Some (Some "private") →
  size (members w r) = 2 →
  c ∈ members w r →
  Server.join_room w c r u (Some "private") = (w, [socket_emit c RoomFull]) ∧
  Strict.join_room w c r u = (w, [socket_emit c RoomFull]).
Proof.
  intros Hr Hsz _. split.
  - apply server_join_room_full; [done|lia].
  - apply strict_join_room_full; [done|lia].
Qed.

Lemma C10_member_rejoin_is_refused_witness :
  let w := Server.run init
             [Server.Connect "X"; Server.Connect "Y";
              Server.JoinRoom "X" "p1" (Some "alice") (Some "private");
              Server.JoinRoom "Y" "p1" (Some "bob") (Some "private")] in
  "X" ∈ members w "p1" ∧
  Server.join_room w "X" "p1" (Some "alice") (Some "private")
    = (w, [socket_emit "X" RoomFull]).
Proof.
  intros w.
  assert (Hin : "X" ∈ members w "p1").
  { replace (members w "p1") with ({["X"; "Y"]} : gset string)
      by (vm_compute; reflexivity).
    apply elem_of_union_l, elem_of_singleton. reflexivity. }
  split; [exact Hin|].
  apply (C10_member_rejoin_is_refused w "X" "p1" (Some "alice"));
    [vm_compute; reflexivity|vm_compute; reflexivity|exact Hin].
Defined.

(** ** Relaying *)

(** C5, as the code has it. In [server.js] and [part_001], a
    [chat-message] event makes one emission, delivered to the members of
    the target room other than the sending socket, so never to the sender;
    a [message-seen] event makes one emission, [read-receipt], delivered to
    the members of the room other than the acknowledging socket, and what
    it carries is the message id alone: the same payload whoever
    acknowledges, in whatever world. In [part_000], [chat-message] is
    delivered to all the members of the room, the sender included when it
    is one of them (and there is no [message-seen] handler). *)
Theorem C5_chat_and_receipt_routing (w : World) (c r m i : string) :
  chat_message w c r m i =
    (w, [mkDelivery (members w r ∖ {[c]})
           (ChatMessageOut m i c (username_of w c))]) ∧
  (∀ d, d ∈ snd (chat_message w c r m i) → c ∉ recipients d) ∧
  message_seen w c r i =
    (w, [mkDelivery (members w r ∖ {[c]}) (ReadReceipt i)]) ∧
  (∀ w' c', payload <$> snd (message_seen w' c' r i) =
            payload <$> snd (message_seen w c r i)) ∧
  Legacy.chat_message w c r m =
    (w, [mkDelivery (members w r) (ChatMessageBare m c)]).
Proof.
  split_and!; try reflexivity.
  intros d Hd. simpl in Hd. apply list_elem_of_singleton in Hd as ->.
  simpl. set_solver.
Qed.

(** C5 as stated fails on [part_000]: a socket in room "r" that sends a
    [chat-message] to "r" is among the recipients of its own message. *)
Lemma C5_legacy_chat_reaches_sender :
  let w := fst (Legacy.join_room (connect "A" init) "A" "r") in
  ¬ (∀ d, d ∈ snd (Legacy.chat_message w "A" "r" "hi") → "A" ∉ recipients d).
Proof.
  intros w H.
  apply (H (mkDelivery (members w "r") (ChatMessageBare "hi" "A"))).
  - apply list_elem_of_here.
  - replace (members w "r") with ({["A"]} : gset string)
      by (vm_compute; reflexivity).
    simpl. apply elem_of_singleton. reflexivity.
Qed.

(** C9. The [chat-message], [typing] and [message-seen] handlers of
    [server.js] and [part_001] look neither at the directory nor at the
    sender's memberships: for every world, socket and room id, the event is
    relayed to the members the room id has at that moment, the sender
    excepted, and the world is left as it was. A socket that is not in the
    room reaches every member of it. *)
Theorem C9_relay_without_membership_check
    (w : World) (c r m i : string) (b : bool) :
  chat_message w c r m i =
    (w, [mkDelivery (members w r ∖ {[c]})
           (ChatMessageOut m i c (username_of w c))]) ∧
  typing w c r b =
    (w, [mkDelivery (members w r ∖ {[c]}) (TypingOut (username_of w c) b)]) ∧
  message_seen w c r i =
    (w, [mkDelivery (members w r ∖ {[c]}) (ReadReceipt i)]) ∧
  (∀ f, snd (chat_message (set_activeRooms f w) c r m i) =
        snd (chat_message w c r m i) ∧
        snd (typing (set_activeRooms f w) c r b) = snd (typing w c r b) ∧
        snd (message_seen (set_activeRooms f w) c r i) =
        snd (message_seen w c r i)) ∧
  (c ∉ members w r → members w r ∖ {[c]} = members w r).
Proof.
  split_and!; try reflexivity.
  - intros f. split_and!; reflexivity.
  - set_solver.
Qed.

(** A socket that never joined "abc123" sends a message there: both
    members receive it. *)
Example relay_from_outsider :
  let w := Server.run init
             [Server.Connect "X"; Server.Connect "Y"; Server.Connect "Z";
              Server.JoinRoom "X" "abc123" (Some "alice") (Some "group");
              Server.JoinRoom "Y" "abc123" (Some "bob") (Some "group")] in
  rooms_of w "Z" = ["Z"] ∧
  snd (chat_message w "Z" "abc123" "hi" "m1") =
    [mkDelivery {["X"; "Y"]} (ChatMessageOut "hi" "m1" "Z" None)] ∧
  snd (chat_message w "Z" "nowhere" "hi" "m1") =
    [mkDelivery ∅ (ChatMessageOut "hi" "m1" "Z" None)].
Proof. vm_compute. split_and!; reflexivity. Qed.

(** ** Upload *)

(** C8. An upload that succeeds and supplies a room id (a [roomId] form
    field that is not empty) makes one emission, [file-shared], delivered
    to all the members of that room. It carries the descriptor of the
    stored file (file name, original name, media type, size in bytes and
    the path [/uploads/] followed by the file name), the [senderId] field
    as received, the [tempId] field, and a sender name: the
    [socket.data.username] of the socket with id [senderId] when such a
    socket is connected, ['A user'] when there is none. *)
Theorem C8_file_shared
    (w : World) (f : UploadedFile) (r : string)
    (senderId tempId : option string) :
  r ≠ "" →
  upload w None (Some f) (Some r) senderId tempId =
    (Status200 (fileData_of f),
     [mkDelivery (members w r)
        (FileShared (fileData_of f) senderId (sender_name w senderId) tempId)]) ∧
  fileData_of f =
    mkFileData (file_filename f) (file_originalname f) (file_mimetype f)
               (file_size f) ("/uploads/" ++ file_filename f) ∧
  (∀ c s, senderId = Some c → sockets w !! c = Some s →
          sender_name w senderId = username s) ∧
  (senderId = None ∨ (∃ c, senderId = Some c ∧ sockets w !! c = None) →
   sender_name w senderId = Some "A user").
Proof.
  intros Hr. split_and!.
  - unfold upload, truthy. destruct r; [done|reflexivity].
  - reflexivity.
  - intros c s -> Hs. unfold sender_name. simpl. by rewrite Hs.
  - intros [->|(c & -> & Hs)]; unfold sender_name; simpl; [done|].
    by rewrite Hs.
Qed.

Lemma C8_file_shared_witness :
  let w := Server.run init
             [Server.Connect "X"; Server.Connect "Y";
              Server.JoinRoom "X" "abc123" (Some "alice") (Some "group");
              Server.JoinRoom "Y" "abc123" (Some "bob") (Some "group")] in
  let f := mkUploadedFile "1700000000000-cat.png" "cat.png" "image/png" 2048 in
  snd (upload w None (Some f) (Some "abc123") (Some "Y") (Some "t1")) =
    [mkDelivery {["X"; "Y"]}
       (FileShared
          (mkFileData "1700000000000-cat.png" "cat.png" "image/png" 2048
                      "/uploads/1700000000000-cat.png")
          (Some "Y") (Some "bob") (Some "t1"))] ∧
  snd (upload w None (Some f) (Some "abc123") (Some "gone") None) =
    [mkDelivery {["X"; "Y"]}
       (FileShared
          (mkFileData "1700000000000-cat.png" "cat.png" "image/png" 2048
                      "/uploads/1700000000000-cat.png")
          (Some "gone") (Some "A user") None)].
Proof.
  intros w f. split.
  - destruct (C8_file_shared w f "abc123" (Some "Y") (Some "t1")) as (E & _);
      [discriminate|].
    rewrite E. vm_compute. reflexivity.
  - destruct (C8_file_shared w f "abc123" (Some "gone") None) as (E & _);
      [discriminate|].
    rewrite E. vm_compute. reflexivity.
Defined.

(** ** Leaving *)

Lemma disconnect_deliveries (w : World) (c : string) :
  snd (disconnect w c) = user_left_for w c <$> filter (λ r, r ≠ c) (rooms_of w c).
Proof.
  unfold disconnect, disconnecting.
  pose proof (disconnecting_loop_deliveries (rooms_of w c) w c) as Hd.
  destruct (disconnecting_loop w c (rooms_of w c)) as [w' ds]. exact Hd.
Qed.

Lemma user_left_sent (w : World) (c r : string) :
  r ≠ c → c ∈ members w r → user_left_for w c r ∈ snd (disconnect w c).
Proof.
  intros Hne Hin. rewrite disconnect_deliveries.
  apply list_elem_of_fmap_2, list_elem_of_filter.
  split; [done|]. by apply elem_of_rooms_of.
Qed.

(** C6. When a socket disconnects, the handler visits the rooms the socket
    is in, its own-id room excepted, and for each sends one [user-left]
    with the socket's display name to the members the room has while the
    socket is still one of them, the socket excepted; the size it then
    tests for the cleanup is that of the same, not yet reduced, member set.
    After the handler the socket is out of every room. So when the room
    held the socket and one other, that other receives [user-left] and the
    room stays registered as it was; when the socket was alone in the room,
    the [user-left] for it has no recipient and the room is taken out of
    the directory. *)
Theorem C6_user_left_before_cleanup (w : World) (c : string) :
  let w' := fst (disconnect w c) in
  let ds := snd (disconnect w c) in
  ds = user_left_for w c <$> filter (λ r, r ≠ c) (rooms_of w c) ∧
  (∀ r, user_left_for w c r =
        mkDelivery (members w r ∖ {[c]}) (UserLeft (username_of w c))) ∧
  (∀ r, activeRooms w' !! r =
        if decide (r ≠ c ∧ members w r = {[c]})
        then None else activeRooms w !! r) ∧
  (∀ r, members w' r = members w r ∖ {[c]}) ∧
  (∀ r d, r ≠ c → d ≠ c → members w r = {[c; d]} →
          mkDelivery {[d]} (UserLeft (username_of w c)) ∈ ds ∧
          activeRooms w' !! r = activeRooms w !! r ∧
          members w' r = {[d]}) ∧
  (∀ r, r ≠ c → members w r = {[c]} →
        user_left_for w c r ∈ ds ∧
        recipients (user_left_for w c r) = ∅ ∧
        activeRooms w' !! r = None ∧
        members w' r = ∅).
Proof.
  intros w' ds. subst w' ds. split_and!.
  - apply disconnect_deliveries.
  - reflexivity.
  - apply disconnect_activeRooms.
  - apply disconnect_members.
  - intros r d Hr Hd Hm.
    assert (Hset : members w r ∖ {[c]} = {[d]}) by (rewrite Hm; set_solver).
    split_and!.
    + rewrite <- Hset. apply (user_left_sent w c r); [done|].
      rewrite Hm. set_solver.
    + rewrite disconnect_activeRooms, decide_False; [done|].
      intros [_ E]. rewrite Hm in E.
      assert (d ∈ ({[c]} : gset string)) by (rewrite <- E; set_solver).
      set_solver.
    + by rewrite disconnect_members.
  - intros r Hr Hm.
    assert (Hset : members w r ∖ {[c]} = ∅) by (rewrite Hm; set_solver).
    split_and!.
    + apply user_left_sent; [done|]. rewrite Hm. set_solver.
    + exact Hset.
    + by rewrite disconnect_activeRooms, decide_True.
    + by rewrite disconnect_members.
Qed.

(** X is alone in "solo" and disconnects: one [user-left] without
    recipient, and "solo" is gone from the directory. *)
Example solo_disconnect :
  let w := Server.run init
             [Server.Connect "X"; Server.JoinRoom "X" "solo" (Some "alice") (Some "group")] in
  activeRooms w !! "solo" = Some (Some "group") ∧
  disconnect w "X" = (init, [mkDelivery ∅ (UserLeft (Some "alice"))]).
Proof. vm_compute. split; reflexivity. Qed.

(** ** Directory and membership *)

(** C3, at the input where the code departs from it. A socket asks to join
    the room named by its own id: the room is registered, and the socket,
    already in it, stays its only member. When the socket disconnects the
    handler skips that room ([room !== socket.id]), so the entry stays in
    the directory for a room that has no member left. The same happens
    when another socket joins the room named after a socket, leaves first,
    and the owner leaves last. *)
Theorem C3_own_id_room_stays_registered :
  let es1 := [Server.Connect "A"; Server.JoinRoom "A" "A" (Some "alice") (Some "group")] in
  let es2 := [Server.Connect "A"; Server.Connect "B";
              Server.JoinRoom "B" "A" (Some "bob") (Some "group");
              Server.Disconnect "B"] in
  server_allowed_all init (es1 ++ [Server.Disconnect "A"]) = true ∧
  members (Server.run init es1) "A" = {["A"]} ∧
  activeRooms (Server.run init (es1 ++ [Server.Disconnect "A"])) !! "A"
    = Some (Some "group") ∧
  members (Server.run init (es1 ++ [Server.Disconnect "A"])) "A" = ∅ ∧
  server_allowed_all init (es2 ++ [Server.Disconnect "A"]) = true ∧
  members (Server.run init es2) "A" = {["A"]} ∧
  activeRooms (Server.run init (es2 ++ [Server.Disconnect "A"])) !! "A"
    = Some (Some "group") ∧
  members (Server.run init (es2 ++ [Server.Disconnect "A"])) "A" = ∅.
Proof. vm_compute. split_and!; reflexivity. Qed.

Section directory.
Implicit Types (w : World) (c r : string) (u k : option string).

Lemma enter_room_live w c r u x :
  is_Some (sockets (fst (enter_room w c r u)) !! x) ↔ is_Some (sockets w !! x).
Proof.
  unfold enter_room. simpl.
  destruct (decide (c = x)) as [->|Hne].
  - rewrite !lookup_alter_eq, !fmap_is_Some. done.
  - rewrite !lookup_alter_ne by done. done.
Qed.

(** What a [join-room] of [server.js] for an id that is not an inherited
    name does to the world: nothing, or the socket enters and the room is
    registered from then on. *)
Lemma server_join_room_effect w c r u k :
  inherited r = false →
  let w' := fst (Server.join_room w c r u k) in
  w' = w ∨
  (sockets w' = sockets (fst (enter_room w c r u)) ∧
   is_Some (activeRooms w' !! r) ∧
   ∀ r', r' ≠ r → activeRooms w' !! r' = activeRooms w !! r').
Proof.
  intros Hi.
  destruct (server_join_room_outcome w c r u k)
    as [(d & _ & _ & E)|[(_ & _ & _ & E)|[(Hr & _ & E)|
        [(_ & Hi' & _)|(Hn & E)]]]]; [| | |congruence|]; rewrite E.
  - by left.
  - by left.
  - right. simpl. rewrite Hr. eauto.
  - right. simpl. rewrite lookup_insert_eq. split_and!; [done|eauto|].
    intros r' Hne. by rewrite lookup_insert_ne.
Qed.

Lemma directory_inv_init : directory_inv init.
Proof.
  split.
  - intros c [s Hs]. cbn [init sockets] in Hs. by rewrite lookup_empty in Hs.
  - intros r _. cbn [init activeRooms]. rewrite lookup_empty.
    assert (members init r = ∅) as ->.
    { apply set_eq. intros x. rewrite elem_of_members. cbn [init sockets].
      rewrite lookup_empty. set_solver. }
    split; [by intros [? ?]|done].
Qed.

Lemma directory_inv_connect w c :
  directory_inv w → sockets w !! c = None → activeRooms w !! c = None →
  directory_inv (connect c w).
Proof.
  intros [J1 J2] Hc Ha.
  assert (Hmc : members w c = ∅).
  { destruct (decide (members w c = ∅)) as [|Hne]; [done|].
    apply (J2 c Hc) in Hne as [? ?]. congruence. }
  split.
  - intros x Hx. rewrite members_connect by done. simpl in *.
    destruct (decide (x = c)) as [->|Hne].
    + split; [done|]. rewrite Hmc. set_solver.
    + rewrite lookup_insert_ne in Hx by done. by apply J1.
  - intros r Hr. rewrite members_connect by done. simpl in *.
    destruct (decide (r = c)) as [->|Hne];
      [by rewrite lookup_insert_eq in Hr|].
    rewrite lookup_insert_ne in Hr by done. by apply J2.
Qed.

Lemma directory_inv_join_room w c r u k :
  directory_inv w → is_Some (sockets w !! c) → sockets w !! r = None →
  inherited r = false →
  directory_inv (fst (Server.join_room w c r u k)).
Proof.
  intros [J1 J2] Hc Hr Hi.
  destruct (server_join_room_effect w c r u k Hi)
    as [->|(Hs & Hreg & Hother)]; [done|].
  set (w' := fst (Server.join_room w c r u k)) in *.
  assert (Hm : ∀ x, members w' x =
                    if decide (x = r) then members w x ∪ {[c]} else members w x).
  { intros x. rewrite (members_ext w' (fst (enter_room w c r u))) by done.
    rewrite enter_room_members.
    destruct (decide (x = r)) as [->|Hne];
      [by rewrite decide_True|by rewrite decide_False by naive_solver]. }
  assert (Hlive : ∀ x, is_Some (sockets w' !! x) ↔ is_Some (sockets w !! x)).
  { intros x. rewrite Hs. apply enter_room_live. }
  split.
  - intros x Hx%Hlive.
    assert (x ≠ r) as Hne.
    { intros ->. rewrite Hr in Hx. by destruct Hx. }
    rewrite Hother, Hm, decide_False by done. by apply J1.
  - intros r' Hr'. rewrite Hm.
    assert (sockets w !! r' = None) as Hr'w.
    { apply eq_None_not_Some. rewrite <- Hlive. by apply eq_None_not_Some. }
    destruct (decide (r' = r)) as [->|Hne].
    + split; [set_solver|done].
    + rewrite Hother by done. by apply J2.
Qed.

Lemma directory_inv_disconnect w c :
  directory_inv w → is_Some (sockets w !! c) →
  directory_inv (fst (disconnect w c)).
Proof.
  intros [J1 J2] Hc.
  assert (Hs : ∀ x, sockets (fst (disconnect w c)) !! x =
                    if decide (x = c) then None else sockets w !! x).
  { intros x. unfold disconnect, disconnecting.
    pose proof (disconnecting_loop_sockets (rooms_of w c) w c) as E.
    destruct (disconnecting_loop w c (rooms_of w c)) as [w1 ds]. simpl in *.
    rewrite E. case_decide as Hx; [subst x; apply lookup_delete_eq|].
    by apply lookup_delete_ne. }
  split.
  - intros x. rewrite Hs, disconnect_activeRooms, disconnect_members.
    case_decide as Hx; [by intros [? ?]|]. intros [Ha Hm]%J1.
    split; [by case_decide|set_solver].
  - intros r. rewrite Hs, disconnect_activeRooms, disconnect_members.
    destruct (decide (r = c)) as [->|Hne].
    + intros _. destruct (J1 c Hc) as [Ha Hm].
      rewrite decide_False by naive_solver. rewrite Ha.
      split; [by intros [? ?]|]. intros Hn. exfalso. apply Hn. set_solver.
    + intros Hr. specialize (J2 r Hr).
      destruct (decide (r ≠ c ∧ members w r = {[c]})) as [[_ E]|Hn].
      * rewrite E. split; [by intros [? ?]|]. intros Hx. exfalso. apply Hx.
        set_solver.
      * rewrite J2. split.
        -- intros Hm Hd. apply Hn. split; [done|].
           apply set_eq. intros y. rewrite elem_of_singleton. split.
           ++ intros Hy. destruct (decide (y = c)); [done|]. set_solver.
           ++ intros ->. apply set_choose_L in Hm as [x Hx].
              destruct (decide (x = c)) as [->|]; [done|]. set_solver.
        -- set_solver.
Qed.

Lemma reachable_apart_directory w : reachable_apart w → directory_inv w.
Proof.
  induction 1 as [|w e _ IH Hal Hap]; [apply directory_inv_init|].
  destruct e; simpl in *; try done.
  - apply andb_prop in Hal as [H1%bool_decide_eq_true H2%bool_decide_eq_true].
    by apply directory_inv_connect.
  - apply bool_decide_eq_true in Hal.
    apply andb_prop in Hap as [Hr%bool_decide_eq_true Hi%negb_true_iff].
    by apply directory_inv_join_room.
  - apply bool_decide_eq_true in Hal. by apply directory_inv_disconnect.
Qed.

Lemma reachable_apart_run es w :
  reachable_apart w → server_apart_all w es = true →
  reachable_apart (Server.run w es).
Proof.
  revert w. induction es as [|e es IH]; intros w Hw Hal; simpl in *; [done|].
  apply andb_prop in Hal as [[He Ha]%andb_prop Hes]. apply IH; [|done].
  by apply reachable_apart_step.
Qed.

End directory.

(** Where [server.js] does keep the directory in step with membership. As
    long as no request asks to join the own-id room of a live socket or a
    room named by a property inherited from [Object.prototype], in every
    world reached: the own-id room of a live socket is not in the
    directory; any other room id is in the directory if and only if some
    socket is a member of it; and when the only member of such a room
    disconnects, the world after has the room neither in the directory nor
    with a member. *)
Theorem directory_follows_membership (w : World) (r : string) :
  reachable_apart w →
  (is_Some (sockets w !! r) → activeRooms w !! r = None) ∧
  (sockets w !! r = None →
   (is_Some (activeRooms w !! r) ↔ members w r ≠ ∅) ∧
   ∀ c, members w r = {[c]} →
        activeRooms (fst (disconnect w c)) !! r = None ∧
        members (fst (disconnect w c)) r = ∅).
Proof.
  intros [J1 J2]%reachable_apart_directory. split; [by intros [? _]%J1|].
  intros Hr. split; [by apply J2|]. intros c Hm.
  assert (r ≠ c) as Hne.
  { intros ->. assert (c ∈ members w c) as Hc by (rewrite Hm; set_solver).
    apply members_connected in Hc as [? ?]. congruence. }
  rewrite disconnect_activeRooms, disconnect_members, decide_True by done.
  split; [done|]. rewrite Hm. set_solver.
Qed.

Lemma directory_follows_membership_witness :
  let es := [Server.Connect "A"; Server.Connect "B";
             Server.JoinRoom "A" "abc123" (Some "alice") (Some "group");
             Server.JoinRoom "B" "abc123" (Some "bob") (Some "group");
             Server.Disconnect "A"] in
  let w := Server.run init es in
  members w "abc123" = {["B"]} ∧
  is_Some (activeRooms w !! "abc123") ∧
  activeRooms (fst (disconnect w "B")) !! "abc123" = None ∧
  members (fst (disconnect w "B")) "abc123" = ∅.
Proof.
  intros es w.
  assert (Hm : members w "abc123" = {["B"]}) by (vm_compute; reflexivity).
  destruct (directory_follows_membership w "abc123") as [_ H].
  { apply reachable_apart_run; [apply reachable_apart_init|].
    vm_compute. reflexivity. }
  destruct H as [Hiff Hlast]; [vm_compute; reflexivity|].
  destruct (Hlast "B" Hm) as [H1 H2].
  split_and!; [exact Hm| |exact H1|exact H2].
  apply Hiff. rewrite Hm. intros E.
  assert ("B" ∈ (∅ : gset string)) as Hin
    by (rewrite <- E; apply elem_of_singleton; reflexivity).
  by apply not_elem_of_empty in Hin.
Defined.

(** ** Scenarios *)

(** X creates the group room "abc123" as alice, Y joins as bob: X receives
    [user-joined] bob, Y receives [join-success]. Y then says "hi": X
    receives it with Y's id and name, Y receives nothing. *)
Example scenario_group_chat :
  let w1 := Server.run init
              [Server.Connect "X"; Server.Connect "Y";
               Server.JoinRoom "X" "abc123" (Some "alice") (Some "group")] in
  let '(w2, joined) := Server.join_room w1 "Y" "abc123" (Some "bob") (Some "group") in
  joined = [mkDelivery {["X"]} (UserJoined (Some "bob"));
            mkDelivery {["Y"]} (JoinSuccess "abc123")] ∧
  chat_message w2 "Y" "abc123" "hi" "m1" =
    (w2, [mkDelivery {["X"]} (ChatMessageOut "hi" "m1" "Y" (Some "bob"))]).
Proof. vm_compute. split; reflexivity. Qed.

(** A and B join a room and leave one after the other: the directory has
    no entry for the room in the end, and had one until the second left. *)
Example scenario_last_leave_unregisters :
  let es := [Server.Connect "A"; Server.Connect "B";
             Server.JoinRoom "A" "abc123" (Some "alice") (Some "group");
             Server.JoinRoom "B" "abc123" (Some "bob") (Some "group")] in
  activeRooms (Server.run init (es ++ [Server.Disconnect "A"])) !! "abc123"
    = Some (Some "group") ∧
  snd (disconnect (Server.run init es) "A")
    = [mkDelivery {["B"]} (UserLeft (Some "alice"))] ∧
  Server.run init (es ++ [Server.Disconnect "A"; Server.Disconnect "B"]) = init.
Proof. vm_compute. split_and!; reflexivity. Qed.

(** [part_001]: joining a room nobody created is refused, a created private
    room takes one more member and no third. *)
Example scenario_strict :
  let w0 := connect "Z" (connect "Y" (connect "X" init)) in
  let w1 := fst (Strict.createRoom w0 "Ab3dE6gH" "X" (Some "alice") "private") in
  let w2 := fst (Strict.join_room w1 "Y" "Ab3dE6gH" (Some "bob")) in
  Strict.join_room w0 "Y" "Ab3dE6gH" (Some "bob") = (w0, [socket_emit "Y" RoomNotFound]) ∧
  members w2 "Ab3dE6gH" = {["X"; "Y"]} ∧
  Strict.join_room w2 "Z" "Ab3dE6gH" (Some "carol") = (w2, [socket_emit "Z" RoomFull]).
Proof. vm_compute. split_and!; reflexivity. Qed.

(** * Further properties of the handlers *)

(** ** Outcomes of [join-room] *)
Section outcomes.
Implicit Types (w : World) (c r : string) (u k : option string).

Lemma enter_room_sockets_ext w w0 c r u :
  sockets w0 = sockets w →
  sockets (fst (enter_room w0 c r u)) = sockets (fst (enter_room w c r u)).
Proof. intros E. unfold enter_room. simpl. by rewrite E. Qed.

Lemma enter_room_lookup_ne w c r u x :
  x ≠ c → sockets (fst (enter_room w c r u)) !! x = sockets w !! x.
Proof. intros Hne. unfold enter_room. simpl. by rewrite !lookup_alter_ne. Qed.

Lemma enter_room_lookup w c r u s :
  sockets w !! c = Some s →
  sockets (fst (enter_room w c r u)) !! c =
  Some (mkSocket u
          (if decide (r ∈ rooms s) then rooms s else rooms s ++ [r])).
Proof.
  intros Hs. unfold enter_room. simpl. rewrite !lookup_alter_eq, Hs. done.
Qed.

(** Entering a room one is in, under the name one has, changes nothing. *)
Lemma enter_room_again w c r u s :
  sockets w !! c = Some s → username s = u → r ∈ rooms s →
  fst (enter_room w c r u) = w.
Proof.
  intros Hs Hu Hr. destruct w as [a m]. unfold enter_room, socket_join,
    set_username, set_sockets. simpl in *. f_equal.
  apply map_eq. intros x. destruct (decide (x = c)) as [->|Hne].
  - rewrite !lookup_alter_eq, Hs. simpl. rewrite decide_True by done.
    destruct s as [n rs]. simpl in *. by rewrite Hu.
  - by rewrite !lookup_alter_ne.
Qed.

Lemma disconnect_sockets w c :
  sockets (fst (disconnect w c)) = delete c (sockets w).
Proof.
  unfold disconnect, disconnecting.
  pose proof (disconnecting_loop_sockets (rooms_of w c) w c) as E.
  destruct (disconnecting_loop w c (rooms_of w c)) as [w1 ds]. simpl in *.
  by rewrite E.
Qed.

End outcomes.

(** Every [join-room] request that carries an argument, in [server.js] and
    in [part_001], makes exactly one emission that reaches the requesting
    socket, and that emission is either [join-success] for the room asked
    for or one of the rejections; the handler makes at most two emissions.
    A [join-room] request without argument makes the handler throw before
    anything is emitted or changed. *)
Theorem join_room_answers_once (w : World) (c : string) :
  Server.on_join_room w c None = None ∧
  Strict.on_join_room w c None = None ∧
  (∀ a, ∃ w' ds p,
     Server.on_join_room w c (Some a) = Some (w', ds) ∧
     length ds ≤ 2 ∧
     (is_rejection p = true ∨ p = JoinSuccess (Server.arg_roomId a)) ∧
     reaching c ds = [mkDelivery {[c]} p]) ∧
  (∀ a, ∃ w' ds p,
     Strict.on_join_room w c (Some a) = Some (w', ds) ∧
     length ds ≤ 2 ∧
     (is_rejection p = true ∨ p = JoinSuccess (Strict.arg_roomId a)) ∧
     reaching c ds = [mkDelivery {[c]} p]).
Proof.
  assert (Hone : ∀ p, reaching c [socket_emit c p] = [mkDelivery {[c]} p]).
  { intros p. unfold reaching, socket_emit.
    rewrite filter_cons_True by (simpl; set_solver). done. }
  assert (Henter : ∀ w0 r u,
    reaching c (snd (enter_room w0 c r u)) = [mkDelivery {[c]} (JoinSuccess r)] ∧
    length (snd (enter_room w0 c r u)) ≤ 2).
  { intros w0 r u. rewrite enter_room_deliveries. unfold reaching, socket_emit.
    rewrite filter_cons_False by (simpl; set_solver).
    rewrite filter_cons_True by (simpl; set_solver). split; [done|simpl; lia]. }
  split_and!; [done|done| |].
  - intros [r u k]. unfold Server.on_join_room, destructuring. simpl.
    exists (fst (Server.join_room w c r u k)), (snd (Server.join_room w c r u k)).
    rewrite <- surjective_pairing.
    destruct (server_join_room_cases w c r u k)
      as [(k0 & _ & E)|[(_ & _ & _ & E)|(w0 & _ & E)]]; rewrite E.
    + exists (RoomTypeMismatch k0 k). split_and!; [done|simpl; lia|by left|apply Hone].
    + exists RoomFull. split_and!; [done|simpl; lia|by left|apply Hone].
    + destruct (Henter w0 r u) as [H1 H2]. exists (JoinSuccess r).
      split_and!; [done|exact H2|by right|exact H1].
  - intros [r u]. unfold Strict.on_join_room, destructuring. simpl.
    exists (fst (Strict.join_room w c r u)), (snd (Strict.join_room w c r u)).
    rewrite <- surjective_pairing.
    destruct (strict_join_room_cases w c r u)
      as [(_ & E)|[(_ & _ & E)|E]]; rewrite E.
    + exists RoomNotFound. split_and!; [done|simpl; lia|by left|apply Hone].
    + exists RoomFull. split_and!; [done|simpl; lia|by left|apply Hone].
    + destruct (Henter w r u) as [H1 H2]. exists (JoinSuccess r).
      split_and!; [done|exact H2|by right|exact H1].
Qed.

(** In [server.js], a second identical [join-room] request from a live
    socket leaves the world exactly as the first one left it. When the
    first one succeeded and the kind is not private, the second one
    succeeds again and the other members of the room are sent
    [user-joined] a second time, although nobody new has come in. *)
Theorem rejoin_keeps_world_and_rebroadcasts
    (w : World) (c r : string) (u k : option string) :
  is_Some (sockets w !! c) →
  let w1 := fst (Server.join_room w c r u k) in
  fst (Server.join_room w1 c r u k) = w1 ∧
  (join_succeeded r (snd (Server.join_room w c r u k)) →
   k ≠ Some "private" →
   snd (Server.join_room w1 c r u k) =
     [mkDelivery (members w r ∖ {[c]}) (UserJoined u);
      mkDelivery {[c]} (JoinSuccess r)]).
Proof.
  intros [s Hs] w1.
  assert (Hentered : ∀ w0 data, sockets w0 = sockets w →
            w1 = fst (enter_room w0 c r u) →
            activeRooms_get w0 r = Some data → room_type data = k →
            fst (Server.join_room w1 c r u k) = w1 ∧
            (k ≠ Some "private" →
             snd (Server.join_room w1 c r u k) =
               [mkDelivery (members w r ∖ {[c]}) (UserJoined u);
                mkDelivery {[c]} (JoinSuccess r)])).
  { intros w0 data Hw0 Hw1 Hget Hty.
    assert (Hget1 : activeRooms_get w1 r = Some data) by (by rewrite Hw1).
    assert (Hs1 : sockets w1 !! c = Some (mkSocket u
               (if decide (r ∈ rooms s) then rooms s else rooms s ++ [r]))).
    { rewrite Hw1. apply enter_room_lookup. by rewrite Hw0. }
    assert (Hagain : fst (enter_room w1 c r u) = w1).
    { eapply enter_room_again; [exact Hs1|done|]. simpl.
      destruct (decide (r ∈ rooms s)); [done|]. apply elem_of_app. right.
      by apply list_elem_of_singleton. }
    assert (Hm1 : members w1 r ∖ {[c]} = members w r ∖ {[c]}).
    { rewrite Hw1, enter_room_members, (members_ext w0 w) by done.
      destruct (decide (r = r ∧ is_Some (sockets w0 !! c))); set_solver. }
    destruct (server_join_room_outcome w1 c r u k)
      as [(d & Hd & Hne & _)|[(_ & -> & _ & E)|[(_ & _ & E)|
          [(_ & _ & _ & E)|(Hn & _)]]]].
    - congruence.
    - rewrite E. split; [done|]. by intros [].
    - rewrite E. split; [done|]. intros _.
      rewrite enter_room_deliveries. by rewrite Hm1.
    - rewrite E. split; [done|]. intros _.
      rewrite enter_room_deliveries. by rewrite Hm1.
    - congruence. }
  destruct (server_join_room_outcome w c r u k)
    as [(d & _ & _ & E)|[(_ & -> & _ & E)|[(Hk & _ & E)|
        [(Hn & Hi & -> & E)|(Hn & E)]]]].
  - subst w1. rewrite E. simpl. rewrite E. simpl. split; [done|].
    intros Hok. unfold join_succeeded in Hok.
    rewrite Exists_cons, Exists_nil in Hok. naive_solver.
  - subst w1. rewrite E. simpl. rewrite E. simpl. split; [done|].
    by intros _ [].
  - assert (Hw1 : w1 = fst (enter_room w c r u)) by (subst w1; by rewrite E).
    destruct (Hentered w (RoomEntry k) eq_refl Hw1
                (activeRooms_get_entry _ _ _ Hk) eq_refl) as [H1 H2].
    split; [done|]. intros _. exact H2.
  - assert (Hw1 : w1 = fst (enter_room w c r u)) by (subst w1; by rewrite E).
    destruct (Hentered w InheritedMember eq_refl Hw1
                (activeRooms_get_inherited _ _ Hn Hi) eq_refl) as [H1 H2].
    split; [done|]. intros _. exact H2.
  - assert (Hw1 : w1 = fst (enter_room (set_activeRooms (<[r := k]>) w) c r u))
      by (subst w1; by rewrite E).
    assert (Hget : activeRooms_get (set_activeRooms (<[r := k]>) w) r
                   = Some (RoomEntry k)).
    { apply activeRooms_get_entry. simpl. apply lookup_insert_eq. }
    destruct (Hentered (set_activeRooms (<[r := k]>) w) (RoomEntry k)
                eq_refl Hw1 Hget eq_refl) as [H1 H2].
    split; [done|]. intros _. exact H2.
Qed.

Lemma rejoin_keeps_world_and_rebroadcasts_witness :
  let w := Server.run init
             [Server.Connect "X"; Server.Connect "Y";
              Server.JoinRoom "X" "abc123" (Some "alice") (Some "group")] in
  let w1 := fst (Server.join_room w "Y" "abc123" (Some "bob") (Some "group")) in
  Server.join_room w1 "Y" "abc123" (Some "bob") (Some "group") =
    (w1, [mkDelivery {["X"]} (UserJoined (Some "bob"));
          mkDelivery {["Y"]} (JoinSuccess "abc123")]).
Proof.
  intros w w1.
  destruct (rejoin_keeps_world_and_rebroadcasts w "Y" "abc123"
              (Some "bob") (Some "group"))
    as [H1 H2]; [vm_compute; eauto|].
  fold w1 in H1, H2.
  rewrite (surjective_pairing
             (Server.join_room w1 "Y" "abc123" (Some "bob") (Some "group"))).
  rewrite H1, H2.
  - vm_compute. reflexivity.
  - vm_compute. apply Exists_cons_tl, Exists_cons_hd. reflexivity.
  - discriminate.
Defined.

(** ** What a handler may change *)

(** In [server.js] no request overwrites the kind a room is registered
    with: after any single request the room is still registered with the
    same kind, or it is out of the directory, and the latter only when the
    request is the disconnect of the socket that was its only member. *)
Theorem kind_is_kept_until_cleanup
    (w : World) (e : Server.Event) (r : string) (k : option string) :
  activeRooms w !! r = Some k →
  activeRooms (fst (Server.handle w e)) !! r = Some k ∨
  (activeRooms (fst (Server.handle w e)) !! r = None ∧
   ∃ c, e = Server.Disconnect c ∧ r ≠ c ∧ members w r = {[c]}).
Proof.
  intros Hr. destruct e as [c|c r' u k'|c r' m i|c r' i|c r' b|c|]; simpl;
    try (by left).
  - left. by apply join_room_keeps_kind.
  - rewrite disconnect_activeRooms.
    destruct (decide (r ≠ c ∧ members w r = {[c]})) as [[Hne Hm]|_];
      [right|by left].
    split; [done|]. by exists c.
Qed.

Lemma kind_is_kept_until_cleanup_witness :
  let w := Server.run init
             [Server.Connect "X"; Server.Connect "Y";
              Server.JoinRoom "X" "p1" (Some "alice") (Some "private");
              Server.JoinRoom "Y" "p1" (Some "bob") (Some "private")] in
  activeRooms (fst (Server.handle w (Server.Disconnect "X"))) !! "p1"
    = Some (Some "private").
Proof.
  intros w.
  destruct (kind_is_kept_until_cleanup w (Server.Disconnect "X") "p1"
              (Some "private"))
    as [H|[H _]]; [vm_compute; reflexivity|exact H|].
  exfalso. revert H. vm_compute. discriminate.
Defined.

(** In [server.js] the display name of a socket is written by that
    socket's own successful [join-room] only: after any request the
    transport can deliver, the display name of every socket is what it was,
    unless the request is a [join-room] of that socket that succeeded (the
    name is then the one of the request) or the disconnect of that socket
    (it then has none). *)
Theorem username_is_set_by_own_join_only
    (w : World) (e : Server.Event) (x : string) :
  Server.allowed w e = true →
  let w' := fst (Server.handle w e) in
  username_of w' x = username_of w x ∨
  (∃ r u k, e = Server.JoinRoom x r u k ∧
            join_succeeded r (snd (Server.handle w e)) ∧
            username_of w' x = u) ∨
  (e = Server.Disconnect x ∧ username_of w' x = None).
Proof.
  intros Hal w'. subst w'.
  destruct e as [c|c r u k|c r m i|c r i|c r b|c|]; simpl in *;
    try (by left).
  - left. apply andb_prop in Hal as [Hc%bool_decide_eq_true _].
    unfold username_of. simpl.
    destruct (decide (x = c)) as [->|Hne];
      [by rewrite lookup_insert_eq, Hc|by rewrite lookup_insert_ne].
  - apply bool_decide_eq_true in Hal.
    assert (Hentered : ∀ w0, sockets w0 = sockets w →
      Server.join_room w c r u k = enter_room w0 c r u →
      username_of (fst (Server.join_room w c r u k)) x = username_of w x ∨
      (∃ r0 u0 k0, Server.JoinRoom c r u k = Server.JoinRoom x r0 u0 k0 ∧
         join_succeeded r0 (snd (Server.join_room w c r u k)) ∧
         username_of (fst (Server.join_room w c r u k)) x = u0) ∨
      (Server.JoinRoom c r u k = Server.Disconnect x ∧
       username_of (fst (Server.join_room w c r u k)) x = None)).
    { intros w0 Hw0 E. rewrite E.
      destruct (decide (x = c)) as [->|Hne].
      - right. left. exists r, u, k. split_and!; [done| |].
        + rewrite enter_room_deliveries. unfold join_succeeded.
          apply Exists_cons_tl, Exists_cons_hd. done.
        + apply enter_room_username. by rewrite Hw0.
      - left. unfold username_of.
        by rewrite enter_room_lookup_ne, Hw0. }
    destruct (server_join_room_cases w c r u k)
      as [(k0 & _ & E)|[(_ & _ & _ & E)|(w0 & Hw0 & E)]].
    + left. by rewrite E.
    + left. by rewrite E.
    + by apply (Hentered w0).
  - unfold username_of. rewrite disconnect_sockets.
    destruct (decide (x = c)) as [->|Hne].
    + right. right. by rewrite lookup_delete_eq.
    + left. by rewrite lookup_delete_ne.
Qed.

Lemma username_is_set_by_own_join_only_witness :
  let w := Server.run init
             [Server.Connect "X"; Server.Connect "Y";
              Server.JoinRoom "X" "abc123" (Some "alice") (Some "group")] in
  username_of
    (fst (Server.handle w (Server.JoinRoom "Y" "abc123" (Some "bob") (Some "group")))) "X"
  = Some "alice".
Proof.
  intros w.
  destruct (username_is_set_by_own_join_only w
              (Server.JoinRoom "Y" "abc123" (Some "bob") (Some "group")) "X")
    as [H|[(r & u & k & E & _)|[E _]]];
    [vm_compute; reflexivity| |discriminate E..].
  rewrite H. vm_compute. reflexivity.
Defined.

(** The display name belongs to the socket, not to the room: once a
    [join-room] of a live socket has succeeded in [server.js], whatever
    the room, the messages and typing notices the socket sends to any room,
    and the [user-left] it will leave in any room, carry the name of that
    last request. *)
Theorem last_join_names_the_socket_everywhere
    (w : World) (c r : string) (u k : option string) :
  is_Some (sockets w !! c) →
  join_succeeded r (snd (Server.join_room w c r u k)) →
  let w' := fst (Server.join_room w c r u k) in
  ∀ r' m i b,
    payload <$> snd (chat_message w' c r' m i) = [ChatMessageOut m i c u] ∧
    payload <$> snd (typing w' c r' b) = [TypingOut u b] ∧
    payload (user_left_for w' c r') = UserLeft u.
Proof.
  intros Hc Hok w' r' m i b.
  assert (Hu : username_of w' c = u).
  { subst w'.
    destruct (server_join_room_cases w c r u k)
      as [(k0 & _ & E)|[(_ & _ & _ & E)|(w0 & Hw0 & E)]];
      rewrite E in *.
    - unfold join_succeeded in Hok. simpl in Hok.
      rewrite Exists_cons, Exists_nil in Hok. naive_solver.
    - unfold join_succeeded in Hok. simpl in Hok.
      rewrite Exists_cons, Exists_nil in Hok. naive_solver.
    - apply enter_room_username. by rewrite Hw0. }
  unfold chat_message, typing, user_left_for, socket_to_emit. simpl.
  by rewrite Hu.
Qed.

Lemma last_join_names_the_socket_everywhere_witness :
  let w := Server.run init
             [Server.Connect "X"; Server.Connect "Y";
              Server.JoinRoom "X" "abc123" (Some "alice") (Some "group");
              Server.JoinRoom "Y" "abc123" (Some "bob") (Some "group")] in
  let w' := fst (Server.join_room w "Y" "other" (Some "robert") (Some "group")) in
  payload <$> snd (chat_message w' "Y" "abc123" "hi" "m1") =
    [ChatMessageOut "hi" "m1" "Y" (Some "robert")].
Proof.
  intros w w'.
  destruct (last_join_names_the_socket_everywhere w "Y" "other"
              (Some "robert") (Some "group"))
    with (r' := "abc123") (m := "hi") (i := "m1") (b := true) as (H & _).
  - vm_compute. eauto.
  - vm_compute. apply Exists_cons_tl, Exists_cons_hd. reflexivity.
  - exact H.
Defined.

(** ** Invariants of the socket records *)
Section records.
Implicit Types (w : World) (c r : string) (u k : option string).

Lemma own_room_inv_connect w c : own_room_inv w → own_room_inv (connect c w).
Proof.
  intros I x s. simpl. destruct (decide (x = c)) as [->|Hne].
  - rewrite lookup_insert_eq. intros [= <-]. simpl.
    by apply list_elem_of_singleton.
  - rewrite lookup_insert_ne by done. apply I.
Qed.

Lemma own_room_inv_enter w c r u :
  own_room_inv w → own_room_inv (fst (enter_room w c r u)).
Proof.
  intros I x s. destruct (decide (x = c)) as [->|Hne].
  - destruct (sockets w !! c) as [s0|] eqn:Hs0.
    + rewrite (enter_room_lookup w c r u s0) by done. intros [= <-]. simpl.
      specialize (I c s0 Hs0).
      destruct (decide (r ∈ rooms s0)); [done|]. apply elem_of_app. by left.
    + unfold enter_room. simpl. by rewrite !lookup_alter_eq, Hs0.
  - rewrite enter_room_lookup_ne by done. apply I.
Qed.

Lemma own_room_inv_disconnect w c :
  own_room_inv w → own_room_inv (fst (disconnect w c)).
Proof.
  intros I x s. rewrite disconnect_sockets.
  intros [_ Hs]%lookup_delete_Some. by apply I.
Qed.

Lemma server_join_room_own_room w c r u k :
  own_room_inv w → own_room_inv (fst (Server.join_room w c r u k)).
Proof.
  destruct (server_join_room_cases w c r u k)
    as [(k0 & _ & E)|[(_ & _ & _ & E)|(w0 & Hw0 & E)]];
    rewrite E; simpl; try done.
  intros I. apply (own_room_inv_enter w0). unfold own_room_inv.
  by rewrite Hw0.
Qed.

Lemma server_reachable_own_room w : Server.reachable w → own_room_inv w.
Proof.
  induction 1 as [|w e _ IH _].
  - intros c s; cbn [init sockets]; by rewrite lookup_empty.
  - destruct e; simpl; try done.
    + by apply own_room_inv_connect.
    + by apply server_join_room_own_room.
    + by apply own_room_inv_disconnect.
Qed.

End records.

(** The id of a live socket works as a room id in the relay handlers of
    [server.js]: a [chat-message] that any socket addresses to the id of
    another live socket is delivered to that socket, which never joined
    anything for it. When no request has asked to join an own-id room (or
    a room named by an inherited property name), it is delivered to that
    socket alone. *)
Theorem socket_id_is_addressable (w : World) (c d m i : string) :
  Server.reachable w →
  is_Some (sockets w !! d) →
  d ≠ c →
  (∀ e, e ∈ snd (chat_message w c d m i) → d ∈ recipients e) ∧
  (reachable_apart w →
   snd (chat_message w c d m i) =
     [mkDelivery {[d]} (ChatMessageOut m i c (username_of w c))]).
Proof.
  intros Hreach [s Hs] Hne.
  assert (Hd : d ∈ members w d).
  { apply server_reachable_own_room in Hreach as I.
    apply elem_of_members. exists s. split; [done|]. by apply I. }
  split.
  - intros e ->%list_elem_of_singleton. simpl. set_solver.
  - intros [J1 _]%reachable_apart_directory.
    destruct (J1 d) as [_ Hsub]; [by eexists|].
    unfold chat_message, socket_to_emit. simpl.
    replace (members w d ∖ {[c]}) with ({[d]} : gset string) by set_solver.
    done.
Qed.

Lemma socket_id_is_addressable_witness :
  let w := Server.run init [Server.Connect "X"; Server.Connect "Y"] in
  snd (chat_message w "X" "Y" "psst" "m1") =
    [mkDelivery {["Y"]} (ChatMessageOut "psst" "m1" "X" None)].
Proof.
  intros w.
  destruct (socket_id_is_addressable w "X" "Y" "psst" "m1") as [_ H].
  - apply server_reachable_run; [apply Server.reachable_init|].
    vm_compute. reflexivity.
  - vm_compute. eauto.
  - discriminate.
  - rewrite H.
    + vm_compute. reflexivity.
    + apply reachable_apart_run; [apply reachable_apart_init|].
      vm_compute. reflexivity.
Defined.

(** ** Rooms over their life *)

(** Only the exact kind ['private'] is limited in [server.js]: a room
    registered with any other kind (another string, or none) takes every
    live socket that asks with that kind, however many are in it already.
    After the requests of a list of live sockets, the members are the
    earlier members and all the requesters, and the kind is unchanged. *)
Theorem room_of_other_kind_has_no_limit
    (w : World) (r : string) (k : option string)
    (reqs : list (string * option string)) :
  activeRooms w !! r = Some k →
  k ≠ Some "private" →
  Forall (λ cu, is_Some (sockets w !! cu.1)) reqs →
  let w' := Server.run w (joins_of_kind r k reqs) in
  members w' r = members w r ∪ list_to_set reqs.*1 ∧
  activeRooms w' !! r = Some k.
Proof.
  intros Hr Hk Hlive w'. subst w'. revert w Hr Hlive.
  induction reqs as [|[c u] reqs IH]; intros w Hr Hlive; simpl.
  - split; [set_solver|done].
  - apply Forall_cons in Hlive as [Hc Hlive]. simpl in Hc.
    assert (E : Server.join_room w c r u k = enter_room w c r u).
    { pose proof (activeRooms_get_entry w r k Hr) as Hget.
      destruct (server_join_room_outcome w c r u k)
        as [(d & Hd & Hne & _)|[(_ & -> & _)|[(_ & _ & E)|
            [(Hn & _)|(Hn & _)]]]]; [|done|done|congruence|congruence].
      rewrite Hget in Hd. injection Hd as <-. done. }
    rewrite E.
    destruct (IH (fst (enter_room w c r u))) as [IHm IHk]; [done| |].
    { eapply Forall_impl; [exact Hlive|]. intros cu Hcu.
      by apply enter_room_live. }
    split; [|exact IHk].
    rewrite IHm, enter_room_members.
    rewrite decide_True by done. set_solver.
Qed.

Lemma room_of_other_kind_has_no_limit_witness :
  let w := Server.run init
             [Server.Connect "A"; Server.Connect "B"; Server.Connect "C";
              Server.Connect "D";
              Server.JoinRoom "A" "hall" (Some "ann") (Some "Private")] in
  members (Server.run w (joins_of_kind "hall" (Some "Private")
                           [("B", Some "bea"); ("C", Some "cy");
                            ("D", None)])) "hall"
  = {["A"; "B"; "C"; "D"]}.
Proof.
  intros w.
  destruct (room_of_other_kind_has_no_limit w "hall" (Some "Private")
              [("B", Some "bea"); ("C", Some "cy"); ("D", None)]) as [H _].
  - vm_compute. reflexivity.
  - discriminate.
  - repeat (apply Forall_cons_2; [vm_compute; eauto|]). apply Forall_nil_2.
  - rewrite H. vm_compute. reflexivity.
Defined.





(** The one [join-room] of [server.js] does the work of both handlers of
    [part_001]. On a registered room, asked with the kind the room has, it
    is the [join-room] of [part_001] (same world, same emissions). On an id
    under which the directory has nothing ([activeRooms[roomId]] is
    [undefined]), where [part_001] refuses with [room-not-found], it
    leaves the world that [createRoom] of [part_001] leaves for that id
    and kind. *)
Theorem server_join_covers_create_and_strict_join
    (w : World) (c r : string) (u k : option string) (roomType : string) :
  (activeRooms w !! r = Some k →
   Server.join_room w c r u k = Strict.join_room w c r u) ∧
  (activeRooms_get w r = None →
   Strict.join_room w c r u = (w, [socket_emit c RoomNotFound]) ∧
   fst (Server.join_room w c r u (Some roomType))
     = fst (Strict.createRoom w r c u roomType) ∧
   snd (Strict.createRoom w r c u roomType) = [socket_emit c (RoomCreated r)]).
Proof.
  split; intros Hr.
  - unfold Server.join_room, Strict.join_room.
    rewrite (activeRooms_get_entry w r k) by done. cbn [room_type].
    rewrite bool_decide_eq_false_2 by (by intros []). done.
  - split_and!; [|by rewrite join_room_unregistered|done].
    unfold Strict.join_room. by rewrite Hr.
Qed.

(** An id that names a property every object inherits is a room without
    an entry. In [server.js], as long as nothing is registered under it,
    a [join-room] for it that names a kind is refused with
    [room-type-mismatch] carrying no existing kind, and one that names no
    kind lets the socket in, with [join-success], and registers nothing.
    In [part_001] every [join-room] for it lets the socket in, with no
    [room-not-found] and no size limit, and registers nothing. *)
Theorem inherited_name_is_a_room_without_entry
    (w : World) (c r : string) (u : option string) :
  inherited r = true →
  activeRooms w !! r = None →
  (∀ roomType,
     Server.join_room w c r u (Some roomType) =
       (w, [socket_emit c (RoomTypeMismatch None (Some roomType))])) ∧
  Server.join_room w c r u None = enter_room w c r u ∧
  Strict.join_room w c r u = enter_room w c r u ∧
  activeRooms (fst (enter_room w c r u)) !! r = None ∧
  (is_Some (sockets w !! c) →
   members (fst (enter_room w c r u)) r = members w r ∪ {[c]}) ∧
  snd (enter_room w c r u) =
    [mkDelivery (members w r ∖ {[c]}) (UserJoined u);
     mkDelivery {[c]} (JoinSuccess r)].
Proof.
  intros Hi Hr.
  pose proof (activeRooms_get_inherited w r Hr Hi) as Hget.
  split_and!.
  - intros roomType. unfold Server.join_room. rewrite Hget. done.
  - unfold Server.join_room. rewrite Hget. done.
  - unfold Strict.join_room. rewrite Hget. done.
  - done.
  - intros Hc. by rewrite enter_room_members, decide_True.
  - apply enter_room_deliveries.
Qed.

Lemma inherited_name_is_a_room_without_entry_witness :
  let w := connect "C" (connect "B" (connect "A" init)) in
  let w1 := fst (Strict.join_room w "A" "constructor" (Some "ann")) in
  let w2 := fst (Strict.join_room w1 "B" "constructor" None) in
  let w3 := fst (Strict.join_room w2 "C" "constructor" (Some "cy")) in
  Server.join_room w "A" "constructor" (Some "ann") (Some "group") =
    (w, [socket_emit "A" (RoomTypeMismatch None (Some "group"))]) ∧
  members w3 "constructor" = {["A"; "B"; "C"]} ∧
  activeRooms w3 = ∅.
Proof.
  intros w w1 w2 w3.
  destruct (inherited_name_is_a_room_without_entry w "A" "constructor"
              (Some "ann")) as (H & _);
    [vm_compute; reflexivity|vm_compute; reflexivity|].
  split_and!; [apply H|vm_compute; reflexivity|vm_compute; reflexivity].
Defined.

(** ** The directory of [part_001] *)
Section strict_directory.
Implicit Types (w : World) (c r : string) (u k : option string).

(** A live socket enters a room whose id is not a socket's, and the room is
    registered from then on. *)
Lemma directory_inv_entered w w' c r u :
  directory_inv w → is_Some (sockets w !! c) → sockets w !! r = None →
  sockets w' = sockets (fst (enter_room w c r u)) →
  is_Some (activeRooms w' !! r) →
  (∀ r', r' ≠ r → activeRooms w' !! r' = activeRooms w !! r') →
  directory_inv w'.
Proof.
  intros [J1 J2] Hc Hr Hs Hreg Hother.
  assert (Hm : ∀ x, members w' x =
                    if decide (x = r) then members w x ∪ {[c]} else members w x).
  { intros x. rewrite (members_ext w' (fst (enter_room w c r u))) by done.
    rewrite enter_room_members.
    destruct (decide (x = r)) as [->|Hne];
      [by rewrite decide_True|by rewrite decide_False by naive_solver]. }
  assert (Hlive : ∀ x, is_Some (sockets w' !! x) ↔ is_Some (sockets w !! x)).
  { intros x. rewrite Hs. apply enter_room_live. }
  split.
  - intros x Hx%Hlive.
    assert (x ≠ r) as Hne.
    { intros ->. rewrite Hr in Hx. by destruct Hx. }
    rewrite Hother, Hm, decide_False by done. by apply J1.
  - intros r' Hr'. rewrite Hm.
    assert (sockets w !! r' = None) as Hr'w.
    { apply eq_None_not_Some. rewrite <- Hlive. by apply eq_None_not_Some. }
    destruct (decide (r' = r)) as [->|Hne].
    + split; [set_solver|done].
    + rewrite Hother by done. by apply J2.
Qed.

Lemma directory_inv_strict_join_room w c r u :
  directory_inv w → is_Some (sockets w !! c) → inherited r = false →
  directory_inv (fst (Strict.join_room w c r u)).
Proof.
  intros I Hc Hi.
  destruct (strict_join_room_outcome w c r u)
    as [(_ & E)|[(_ & _ & E)|[(k & Hk & _ & E)|(_ & Hi' & _)]]];
    [| | |congruence]; rewrite E; try done.
  assert (Hr : sockets w !! r = None).
  { destruct I as [J1 _]. destruct (sockets w !! r) eqn:Hs; [|done].
    destruct (J1 r) as [Hn _]; [by eexists|]. congruence. }
  apply (directory_inv_entered w _ c r u); try done.
  all: simpl; rewrite Hk; by eexists.
Qed.

Lemma directory_inv_createRoom w id c u (roomType : string) :
  directory_inv w → is_Some (sockets w !! c) → sockets w !! id = None →
  directory_inv (fst (Strict.createRoom w id c u roomType)).
Proof.
  intros I Hc Hid.
  apply (directory_inv_entered w _ c id u); try done.
  - simpl. rewrite lookup_insert_eq. by eexists.
  - intros r' Hne. simpl. by rewrite lookup_insert_ne.
Qed.

Lemma strict_reachable_apart_directory w :
  strict_reachable_apart w → directory_inv w.
Proof.
  induction 1 as [|w e _ IH Hal Hap]; [apply directory_inv_init|].
  destruct e; simpl in *; try done.
  - apply andb_prop in Hal as [H1%bool_decide_eq_true H2%bool_decide_eq_true].
    by apply directory_inv_connect.
  - apply andb_prop in Hal as [H1%bool_decide_eq_true _].
    apply bool_decide_eq_true in Hap. by apply directory_inv_createRoom.
  - apply andb_prop in Hal as [H1%bool_decide_eq_true _].
    apply bool_decide_eq_true in Hap. by apply directory_inv_createRoom.
  - apply bool_decide_eq_true in Hal. apply negb_true_iff in Hap.
    by apply directory_inv_strict_join_room.
  - apply bool_decide_eq_true in Hal. by apply directory_inv_disconnect.
Qed.

Lemma strict_reachable_apart_run es w :
  strict_reachable_apart w → strict_apart_all w es = true →
  strict_reachable_apart (strict_run w es).
Proof.
  revert w. induction es as [|e es IH]; intros w Hw Hal; simpl in *; [done|].
  apply andb_prop in Hal as [[He Ha]%andb_prop Hes]. apply IH; [|done].
  by apply strict_reachable_apart_step.
Qed.

End strict_directory.

(** Where [part_001] keeps its directory in step with membership. As long
    as [nanoid] does not return the id of a live socket and no [join-room]
    names a property inherited from [Object.prototype], in every world
    reached: the own-id room of a live socket is not in the directory and
    holds that socket alone; any other room id is in the directory if and
    only if some socket is a member of it; and when the only member of
    such a room disconnects, the room leaves the directory. *)
Theorem strict_directory_follows_membership (w : World) (r : string) :
  strict_reachable_apart w →
  (is_Some (sockets w !! r) →
   activeRooms w !! r = None ∧ members w r ⊆ {[r]}) ∧
  (sockets w !! r = None →
   (is_Some (activeRooms w !! r) ↔ members w r ≠ ∅) ∧
   ∀ c, members w r = {[c]} →
        activeRooms (fst (disconnect w c)) !! r = None ∧
        members (fst (disconnect w c)) r = ∅).
Proof.
  intros [J1 J2]%strict_reachable_apart_directory. split; [apply J1|].
  intros Hr. split; [by apply J2|]. intros c Hm.
  assert (r ≠ c) as Hne.
  { intros ->. assert (c ∈ members w c) as Hc by (rewrite Hm; set_solver).
    apply members_connected in Hc as [? ?]. congruence. }
  rewrite disconnect_activeRooms, disconnect_members, decide_True by done.
  split; [done|]. rewrite Hm. set_solver.
Qed.

Lemma strict_directory_follows_membership_witness :
  let w := strict_run init
             [Strict.Connect "X"; Strict.Connect "Y";
              Strict.CreateGroupRoom "Ab3dE6gH" "X" (Some "alice");
              Strict.JoinRoom "Y" "X" (Some "bob");
              Strict.JoinRoom "Y" "Ab3dE6gH" (Some "bob");
              Strict.Disconnect "X"] in
  members w "Ab3dE6gH" = {["Y"]} ∧
  is_Some (activeRooms w !! "Ab3dE6gH") ∧
  activeRooms (fst (disconnect w "Y")) !! "Ab3dE6gH" = None.
Proof.
  intros w.
  assert (Hm : members w "Ab3dE6gH" = {["Y"]}) by (vm_compute; reflexivity).
  destruct (strict_directory_follows_membership w "Ab3dE6gH") as [_ H].
  { apply strict_reachable_apart_run; [apply strict_reachable_apart_init|].
    vm_compute. reflexivity. }
  destruct H as [Hiff Hlast]; [vm_compute; reflexivity|].
  destruct (Hlast "Y" Hm) as [H1 _].
  split_and!; [exact Hm| |exact H1].
  apply Hiff. rewrite Hm. intros E.
  assert ("Y" ∈ (∅ : gset string)) as Hin
    by (rewrite <- E; apply elem_of_singleton; reflexivity).
  by apply not_elem_of_empty in Hin.
Defined.

(** ** Upload *)

(** What [POST /upload] answers and when it notifies, in all three
    revisions: the answer depends on the multer result alone (500 with the
    error message, 400 without a file, else 200 with the descriptor of the
    stored file), never on the room fields or on who is connected; there
    is at most one emission, made exactly when the upload succeeded and
    the [roomId] field is present and not empty, and it goes to the members
    of that room. So a successful upload with no or an empty [roomId]
    stores the file and tells nobody. *)
Theorem upload_answer_and_notification
    (w : World) (err : option string) (file : option UploadedFile)
    (roomId senderId tempId : option string) :
  let res := fst (upload w err file roomId senderId tempId) in
  let ds := snd (upload w err file roomId senderId tempId) in
  let ds0 := snd (Legacy.upload w err file roomId senderId) in
  res = match err, file with
        | Some message, _ => Status500 message
        | None, None => Status400 "No file uploaded."
        | None, Some f => Status200 (fileData_of f)
        end ∧
  fst (Legacy.upload w err file roomId senderId) = res ∧
  (∀ w' r' s' t', fst (upload w' err file r' s' t') = res) ∧
  length ds ≤ 1 ∧ length ds0 = length ds ∧
  (ds ≠ [] ↔ err = None ∧ is_Some file ∧ ∃ r, roomId = Some r ∧ r ≠ "") ∧
  (∀ d, d ∈ (ds ++ ds0)%list → ∃ r, roomId = Some r ∧ recipients d = members w r).
Proof.
  intros res ds ds0. subst res ds ds0. unfold upload, Legacy.upload.
  destruct err as [message|]; simpl.
  - split_and!; try done; try lia.
    + split; [done|]. by intros [? _].
    + by intros d ?%elem_of_nil.
  - destruct file as [f|]; simpl.
    + destruct roomId as [[|a r]|]; simpl.
      * split_and!; try done; try lia.
        -- split; [done|]. intros (_ & _ & r & [= <-] & Hr). done.
        -- by intros d ?%elem_of_nil.
      * split_and!; try done; try lia.
        -- split; [|done]. intros _. split_and!; [done|by eexists|].
           by exists (String a r).
        -- intros d Hd. exists (String a r). split; [done|].
           rewrite elem_of_cons, list_elem_of_singleton in Hd.
           by destruct Hd as [-> | ->].
      * split_and!; try done; try lia.
        -- split; [done|]. by intros (_ & _ & r & [=] & _).
        -- by intros d ?%elem_of_nil.
    + split_and!; try done; try lia.
      * split; [done|]. by intros (_ & [? [=]] & _).
      * by intros d ?%elem_of_nil.
Qed.

(** ** The first revision *)

(** Presence in [part_000]. A [join-room] of a live socket always takes
    effect: the socket is added to that room and to no other, the members
    already there are sent [user-joined] with the socket's id, and the
    socket itself is sent nothing, no confirmation either. From then on its
    own [chat-message] to the room comes back to it. Its disconnect takes
    it out of the room and tells nobody. *)
Theorem legacy_join_is_open_and_leave_is_silent (w : World) (c r : string) :
  is_Some (sockets w !! c) →
  let w' := fst (Legacy.join_room w c r) in
  let ds := snd (Legacy.join_room w c r) in
  members w' r = members w r ∪ {[c]} ∧
  (∀ r', r' ≠ r → members w' r' = members w r') ∧
  ds = [mkDelivery (members w r ∖ {[c]}) (UserJoinedId c)] ∧
  reaching c ds = [] ∧
  (∀ m, reaching c (snd (Legacy.chat_message w' c r m)) =
        [mkDelivery (members w r ∪ {[c]}) (ChatMessageBare m c)]) ∧
  snd (Legacy.disconnect w' c) = [] ∧
  members (fst (Legacy.disconnect w' c)) r = members w r ∖ {[c]}.
Proof.
  intros Hc w' ds. subst w' ds. unfold Legacy.join_room. cbn [fst snd].
  assert (Hm : members (socket_join c r w) r = members w r ∪ {[c]}).
  { rewrite members_socket_join. by rewrite decide_True. }
  split_and!.
  - exact Hm.
  - intros r' Hne. rewrite members_socket_join.
    by rewrite decide_False by naive_solver.
  - unfold socket_to_emit. rewrite Hm. do 2 f_equal. set_solver.
  - unfold reaching, socket_to_emit.
    rewrite filter_cons_False by (simpl; set_solver). done.
  - intros m. unfold reaching, Legacy.chat_message, io_to_emit. cbn [snd].
    rewrite filter_cons_True by (simpl; rewrite Hm; set_solver).
    by rewrite Hm.
  - reflexivity.
  - unfold Legacy.disconnect. cbn [fst].
    rewrite members_remove_socket, Hm. set_solver.
Qed.

Lemma legacy_join_is_open_and_leave_is_silent_witness :
  let w := fst (Legacy.join_room (connect "B" (connect "A" init)) "A" "r") in
  snd (Legacy.join_room w "B" "r") = [mkDelivery {["A"]} (UserJoinedId "B")].
Proof.
  intros w.
  destruct (legacy_join_is_open_and_leave_is_silent w "B" "r")
    as (_ & _ & H & _); [vm_compute; eauto|].
  rewrite H. vm_compute. reflexivity.
Defined.

(** ** Requests with missing parts *)

(** A [join-room] without [username]: the socket is let in, its display
    name is [undefined], and so is the name in the [user-left] it leaves.
    A [join-room] without argument: the handler throws. *)
Example scenario_missing_fields :
  let w := Server.run init
             [Server.Connect "X"; Server.Connect "Y";
              Server.JoinRoom "X" "abc123" (Some "alice") (Some "group")] in
  let a := Server.mkJoinRoomArg "abc123" None (Some "group") in
  Server.on_join_room w "Y" None = None ∧
  ∃ w', Server.on_join_room w "Y" (Some a) =
          Some (w', [mkDelivery {["X"]} (UserJoined None);
                     mkDelivery {["Y"]} (JoinSuccess "abc123")]) ∧
        members w' "abc123" = {["X"; "Y"]} ∧
        snd (disconnect w' "Y") = [mkDelivery {["X"]} (UserLeft None)].
Proof.
  split; [reflexivity|]. eexists. split; [reflexivity|].
  vm_compute. split; reflexivity.
Qed.
